(** * DynamoNodeSlides: the table facade of [dynamo/table.js]

    A shallow embedding of the [DynamoTable] class (index selection in
    [query], the expression builders, page aggregation, [putItem] and the
    key builder), followed by the properties established about it.

    Conventions of the embedding.
    - A JavaScript value is a term of [value]; numbers are integers here.
    - A plain object used as a map is an association list kept in the
      order in which [for ... in] enumerates it (insertion order; attribute
      names are assumed not to be array indices). A property read sees
      own properties only, and any name can be assigned as an own property.
    - A function that can [throw] returns a [result].
    - A promise is represented by the way it settles: [outcome]. *)

From Stdlib Require Import String Ascii List ZArith Bool Arith Lia.
From Stdlib Require Import Decimal DecimalNat DecimalString.
Import ListNotations.
Open Scope string_scope.
Set Warnings "-register-all".

(* ================================================================== *)
(** ** JavaScript values and plain objects *)

Inductive value : Type :=
| VUndefined
| VNull
| VBool (b : bool)
| VNum (n : Z)
| VStr (s : string)
| VArr (elems : list value)
| VSet (elems : list value)
| VObj (props : list (string * value)).

(** [!v] is [negb (truthy v)]. *)
Definition truthy (v : value) : bool :=
  match v with
  | VUndefined | VNull => false
  | VBool b => b
  | VNum n => negb (n =? 0)%Z
  | VStr s => negb (s =? "")
  | VArr _ | VSet _ | VObj _ => true
  end.

(** [v.constructor === Array], for a [v] that has a constructor. *)
Definition isArray (v : value) : bool :=
  match v with VArr _ => true | _ => false end.

(** A scalar is anything that is not an array. *)
Definition isScalar (v : value) : bool := negb (isArray v).

Inductive js_error : Type :=
| TypeError
| Error (message : string)
| StoreError (code : string).

Inductive result (A : Type) : Type :=
| Ok (a : A)
| Throw (e : js_error).
Arguments Ok {A} a.
Arguments Throw {A} e.

Definition bind {A B} (r : result A) (k : A -> result B) : result B :=
  match r with Ok a => k a | Throw e => Throw e end.

Notation "'let*' x ':=' r 'in' k" := (bind r (fun x => k))
  (at level 10, x pattern, r at level 100, k at level 200).

Definition obj (A : Type) : Type := list (string * A).

Fixpoint obj_lookup {A} (o : obj A) (k : string) : option A :=
  match o with
  | [] => None
  | (k', v) :: rest => if k' =? k then Some v else obj_lookup rest k
  end.

(** [o[k] = v]: overwrite in place, or append a new property. *)
Fixpoint obj_set {A} (o : obj A) (k : string) (v : A) : obj A :=
  match o with
  | [] => [(k, v)]
  | (k', v') :: rest =>
      if k' =? k then (k, v) :: rest else (k', v') :: obj_set rest k v
  end.

(** [delete o[k]]. *)
Fixpoint obj_delete {A} (o : obj A) (k : string) : obj A :=
  match o with
  | [] => []
  | (k', v') :: rest =>
      if k' =? k then obj_delete rest k else (k', v') :: obj_delete rest k
  end.

Definition obj_keys {A} (o : obj A) : list string := map fst o.

(** [o[k]] on an object of values: a missing property reads [undefined]. *)
Definition obj_get (o : obj value) (k : string) : value :=
  match obj_lookup o k with Some v => v | None => VUndefined end.

(** The property name used by [o[k]] when [k] is a string or [null]. *)
Definition propertyKey (k : option string) : string :=
  match k with Some s => s | None => "null" end.

(** Truthiness of a string-or-null. *)
Definition truthyName (k : option string) : bool :=
  match k with Some s => negb (s =? "") | None => false end.

(* ================================================================== *)
(** ** Strings: [split], [join] and number interpolation *)

(** [s.split(sep)] for a one-character separator. *)
Fixpoint split (sep : ascii) (s : string) : list string :=
  match s with
  | EmptyString => [EmptyString]
  | String c rest =>
      if Ascii.eqb c sep then EmptyString :: split sep rest
      else match split sep rest with
           | [] => [String c EmptyString]
           | h :: t => String c h :: t
           end
  end.

(** [parts.join(sep)]. *)
Definition join (sep : string) (parts : list string) : string :=
  String.concat sep parts.

(** [`${index}`] for a non-negative integer. *)
Definition dec (n : nat) : string :=
  NilEmpty.string_of_uint (Nat.to_uint n).

Definition dot : ascii := "."%char.

(** [s.split('.').join('_')]. *)
Definition dotless (s : string) : string := join "_" (split dot s).

(* ================================================================== *)
(** ** Table descriptions and the [DynamoTable] constructor *)

Inductive key_type : Type := HASH | RANGE.

Definition key_type_eqb (a b : key_type) : bool :=
  match a, b with HASH, HASH | RANGE, RANGE => true | _, _ => false end.

Record key_element : Type := {
  AttributeName : string;
  KeyType : key_type
}.

Record index_desc : Type := {
  IndexName : string;
  IndexKeySchema : list key_element
}.

Record table_desc : Type := {
  TableName : string;
  KeySchema : list key_element;
  LocalSecondaryIndexes : option (list index_desc);
  GlobalSecondaryIndexes : option (list index_desc);
  ItemCount : Z
}.

(** [R.find(k => k.KeyType === kt, schema)]. *)
Fixpoint find_key (kt : key_type) (schema : list key_element)
  : option key_element :=
  match schema with
  | [] => None
  | k :: rest => if key_type_eqb (KeyType k) kt then Some k else find_key kt rest
  end.

Record DynamoTable : Type := {
  tableName : string;
  partitionKey : string;
  sortKey : option string;
  itemCount : Z;
  tableDesc : table_desc
}.

(** The constructor; [tableDesc] may be missing ([undefined]). *)
Definition new_DynamoTable (desc : option table_desc) : result DynamoTable :=
  match desc with
  | None => Throw (Error "Table description object is required")
  | Some d =>
      match find_key HASH (KeySchema d) with
      | None => Throw TypeError
      | Some pk =>
          Ok {| tableName := TableName d;
                partitionKey := AttributeName pk;
                sortKey := match find_key RANGE (KeySchema d) with
                           | Some sk => Some (AttributeName sk)
                           | None => None
                           end;
                itemCount := ItemCount d;
                tableDesc := d |}
      end
  end.

(* ================================================================== *)
(** ** [buildKeyParameters] (getItem, deleteItem) *)

Record key_params : Type := {
  Key : obj value;
  kp_TableName : string
}.

Definition buildKeyParameters (t : DynamoTable) (partitionKeyArg sortKeyArg : value)
  : key_params :=
  let key0 := obj_set [] (partitionKey t) partitionKeyArg in
  let key1 := obj_set key0 (propertyKey (sortKey t)) sortKeyArg in
  {| Key := key1; kp_TableName := tableName t |}.


Definition getItem_params (t : DynamoTable) (partitionKeyArg sortKeyArg : value)
  : key_params := buildKeyParameters t partitionKeyArg sortKeyArg.

(* ================================================================== *)
(** ** Index selection in [query] *)

(** [fitsParamsExactly]: every key of the schema is bound to a truthy
    value that is not an array. *)
Fixpoint fitsParamsExactly (keyValueParameters : obj value)
  (keySchema : list key_element) : bool :=
  match keySchema with
  | [] => true
  | key :: rest =>
      let v := obj_get keyValueParameters (AttributeName key) in
      if negb (truthy v) || isArray v then false
      else fitsParamsExactly keyValueParameters rest
  end.

(** The two loops over an index list. *)
Fixpoint find_exact_index (keyValueParameters : obj value)
  (indexes : list index_desc) : option index_desc :=
  match indexes with
  | [] => None
  | index :: rest =>
      if fitsParamsExactly keyValueParameters (IndexKeySchema index)
      then Some index
      else find_exact_index keyValueParameters rest
  end.

Fixpoint find_partial_index (keyValueParameters : obj value)
  (indexes : list index_desc) : result (option index_desc) :=
  match indexes with
  | [] => Ok None
  | index :: rest =>
      match find_key HASH (IndexKeySchema index) with
      | None => Throw TypeError
      | Some pk =>
          if truthy (obj_get keyValueParameters (AttributeName pk))
          then Ok (Some index)
          else find_partial_index keyValueParameters rest
      end
  end.

(** The two variables the selection assigns: [queryParams.IndexName] and
    [matchingKeySchema]. *)
Record selection : Type := {
  sel_IndexName : option string;
  matchingKeySchema : option (list key_element)
}.

Definition select_primary (t : DynamoTable) : selection :=
  {| sel_IndexName := None;
     matchingKeySchema := Some (KeySchema (tableDesc t)) |}.

Definition select_index_desc (index : index_desc) : selection :=
  {| sel_IndexName := Some (IndexName index);
     matchingKeySchema := Some (IndexKeySchema index) |}.

Definition select_nothing : selection :=
  {| sel_IndexName := None; matchingKeySchema := None |}.

(** Lines 159-218 of [query]; [matchingKeySchema = None] afterwards means
    that the query falls back to [scan]. *)
Definition select_index (t : DynamoTable) (keyValueParameters : obj value)
  : result selection :=
  let partitionKeyValue := obj_get keyValueParameters (partitionKey t) in
  if fitsParamsExactly keyValueParameters (KeySchema (tableDesc t))
  then Ok (select_primary t)
  else
    let '(sel, lsiFound) :=
      if truthy partitionKeyValue then
        match LocalSecondaryIndexes (tableDesc t) with
        | Some lsis =>
            match find_exact_index keyValueParameters lsis with
            | Some index => (select_index_desc index, true)
            | None => (select_primary t, false)
            end
        | None => (select_primary t, false)
        end
      else (select_nothing, false) in
    if lsiFound then Ok sel
    else
      match GlobalSecondaryIndexes (tableDesc t) with
      | Some gsis =>
          let sel' :=
            match find_exact_index keyValueParameters gsis with
            | Some index => select_index_desc index
            | None => sel
            end in
          match matchingKeySchema sel' with
          | Some _ => Ok sel'
          | None =>
              let* partial := find_partial_index keyValueParameters gsis in
              match partial with
              | Some index => Ok (select_index_desc index)
              | None => Ok sel'
              end
          end
      | None => Ok sel
      end.

(* ================================================================== *)
(** ** The expression builders *)

(** The three things a builder mutates: its local [expression] and the two
    placeholder objects it is handed. *)
Record bstate : Type := {
  expression : string;
  expressionAttributeNames : obj string;
  expressionAttributeValues : obj value
}.

Definition emit (st : bstate) (text : string) : bstate :=
  {| expression := expression st ++ text;
     expressionAttributeNames := expressionAttributeNames st;
     expressionAttributeValues := expressionAttributeValues st |}.

Definition set_name (st : bstate) (placeholder part : string) : bstate :=
  {| expression := expression st;
     expressionAttributeNames :=
       obj_set (expressionAttributeNames st) placeholder part;
     expressionAttributeValues := expressionAttributeValues st |}.

Definition set_value (st : bstate) (placeholder : string) (v : value) : bstate :=
  {| expression := expression st;
     expressionAttributeNames := expressionAttributeNames st;
     expressionAttributeValues :=
       obj_set (expressionAttributeValues st) placeholder v |}.

(** *** [buildKeyConditionExpression] *)

Definition addKeyToExpression (keyValuePairs : obj value) (key : key_element)
  (st : bstate) : bstate :=
  let keyPlaceholder := "#" ++ AttributeName key in
  let valuePlaceholder := ":" ++ AttributeName key in
  let st := emit st (keyPlaceholder ++ " = " ++ valuePlaceholder) in
  let st := set_name st keyPlaceholder (AttributeName key) in
  set_value st valuePlaceholder (obj_get keyValuePairs (AttributeName key)).

Definition buildKeyConditionExpression (keySchema : list key_element)
  (keyValuePairs : obj value)
  (names : obj string) (values : obj value) : result bstate :=
  let st := {| expression := "";
               expressionAttributeNames := names;
               expressionAttributeValues := values |} in
  match find_key HASH keySchema with
  | None => Throw (Error "Invalid keySchema")
  | Some partitionKey =>
      let pkValue := obj_get keyValuePairs (AttributeName partitionKey) in
      if negb (truthy pkValue) then
        Throw (Error ("Partition key " ++ AttributeName partitionKey
                        ++ " is required"))
      else
        let st := addKeyToExpression keyValuePairs partitionKey st in
        match find_key RANGE keySchema with
        | Some sortKey =>
            let sortKeyValue := obj_get keyValuePairs (AttributeName sortKey) in
            if truthy sortKeyValue then
              Ok (addKeyToExpression keyValuePairs sortKey (emit st " AND "))
            else Ok st
        | None => Ok st
        end
  end.

(** *** [buildFilterExpression] *)

(** [keySchema.forEach(key => delete searchTerms[key.AttributeName])]. *)
Fixpoint remove_keys (searchTerms : obj value) (keySchema : list key_element)
  : obj value :=
  match keySchema with
  | [] => searchTerms
  | key :: rest => remove_keys (obj_delete searchTerms (AttributeName key)) rest
  end.

(** The [forEach] of [buildKeyPlaceholder], from position [index] on:
    returns the placeholders pushed. *)
Fixpoint partPlaceholders (dotlessKey : string) (keyParts : list string)
  (index : nat) (st : bstate) : list string * bstate :=
  match keyParts with
  | [] => ([], st)
  | part :: rest =>
      let partPlaceholder := "#" ++ dotlessKey ++ dec index in
      let st := set_name st partPlaceholder part in
      let '(pushed, st) := partPlaceholders dotlessKey rest (S index) st in
      (partPlaceholder :: pushed, st)
  end.

Definition buildKeyPlaceholder (key : string) (st : bstate) : string * bstate :=
  let keyParts := split dot key in
  let dotlessKey := join "_" keyParts in
  let '(placeholders, st) := partPlaceholders dotlessKey keyParts 0 st in
  (join "." placeholders, st).

Definition addSearchTermToExpression (key : string) (v : value) (st : bstate)
  : bstate :=
  let valuePlaceholder := dotless (":" ++ key) in
  let st := set_value st valuePlaceholder v in
  let '(keyPlaceholder, st) := buildKeyPlaceholder key st in
  emit st (keyPlaceholder ++ " = " ++ valuePlaceholder).

(** The [forEach] of [addInQueryToExpression], from position [index] on. *)
Fixpoint inPlaceholders (key : string) (values : list value) (index : nat)
  (st : bstate) : list string * bstate :=
  match values with
  | [] => ([], st)
  | v :: rest =>
      let placeholder := dotless (":" ++ key ++ dec index) in
      let st := set_value st placeholder v in
      let '(pushed, st) := inPlaceholders key rest (S index) st in
      (placeholder :: pushed, st)
  end.

Definition addInQueryToExpression (key : string) (values : list value)
  (st : bstate) : bstate :=
  let '(keyPlaceholder, st) := buildKeyPlaceholder key st in
  let '(valuePlaceholders, st) := inPlaceholders key values 0 st in
  emit st (keyPlaceholder ++ " IN (" ++ join "," valuePlaceholders ++ ")").

Definition addContainsQueryToExpression (key : string) (v : value) (st : bstate)
  : bstate :=
  let '(keyPlaceholder, st) := buildKeyPlaceholder key st in
  let valuePlaceholder := dotless (":" ++ key) in
  let st := set_value st valuePlaceholder v in
  emit st ("contains(" ++ keyPlaceholder ++ ", " ++ valuePlaceholder ++ ")").

(** [v[i]] for a small index: reading an element of [undefined] or
    [null] throws; an array gives its element, a string its character, an
    object its property of that name, anything else (and any missing
    element) [undefined]. *)
Definition element (v : value) (i : nat) : result value :=
  match v with
  | VUndefined | VNull => Throw TypeError
  | VArr elems => Ok (nth i elems VUndefined)
  | VStr s => Ok match String.get i s with
                 | Some c => VStr (String c EmptyString)
                 | None => VUndefined
                 end
  | VObj props => Ok (obj_get props (dec i))
  | VBool _ | VNum _ | VSet _ => Ok VUndefined
  end.

(** [values] is the range entry [betweenQuery[key]] as it is. *)
Definition addBetweenQueryToExpression (key : string) (values : value)
  (st : bstate) : result bstate :=
  let '(keyPlaceholder, st) := buildKeyPlaceholder key st in
  let p1 := dotless (":" ++ key ++ "1") in
  let* low := element values 0 in
  if negb (truthy low) then
    let st := emit st (keyPlaceholder ++ " <= " ++ p1) in
    let* high := element values 1 in
    Ok (set_value st p1 high)
  else
    let* high := element values 1 in
    if negb (truthy high) then
      let st := emit st (keyPlaceholder ++ " >= " ++ p1) in
      Ok (set_value st p1 low)
    else
      let p2 := dotless (":" ++ key ++ "2") in
      let st := emit st (keyPlaceholder ++ " BETWEEN " ++ p1 ++ " AND " ++ p2) in
      let st := set_value st p1 low in
      Ok (set_value st p2 high).

(** [if (expression.length > 0) expression += ' AND ']. *)
Definition andIfNonEmpty (st : bstate) : bstate :=
  if (0 <? String.length (expression st))%nat then emit st " AND " else st.

(** The three [for ... in] loops. Reading [.constructor] of [undefined] or
    [null] throws, and so does reading element 0 of such a range entry. *)
Fixpoint searchTermsLoop (searchTerms : obj value) (st : bstate)
  : result bstate :=
  match searchTerms with
  | [] => Ok st
  | (key, v) :: rest =>
      let st := andIfNonEmpty st in
      match v with
      | VUndefined | VNull => Throw TypeError
      | VArr values => searchTermsLoop rest (addInQueryToExpression key values st)
      | _ => searchTermsLoop rest (addSearchTermToExpression key v st)
      end
  end.

Fixpoint containsLoop (containsQuery : obj value) (st : bstate) : bstate :=
  match containsQuery with
  | [] => st
  | (key, v) :: rest =>
      containsLoop rest (addContainsQueryToExpression key v (andIfNonEmpty st))
  end.

Fixpoint betweenLoop (betweenQuery : obj value) (st : bstate)
  : result bstate :=
  match betweenQuery with
  | [] => Ok st
  | (key, values) :: rest =>
      let* st := addBetweenQueryToExpression key values (andIfNonEmpty st) in
      betweenLoop rest st
  end.

Definition orEmpty {A} (o : option (obj A)) : obj A :=
  match o with Some q => q | None => [] end.

(** The state in which [buildFilterExpression] returns; the returned
    expression is [filterResult] of it. *)
Definition buildFilterState (keySchema : list key_element)
  (keyValuePairs : obj value) (containsQuery : option (obj value))
  (betweenQuery : option (obj value))
  (names : obj string) (values : obj value) : result bstate :=
  let searchTerms := remove_keys keyValuePairs keySchema in
  let st := {| expression := "";
               expressionAttributeNames := names;
               expressionAttributeValues := values |} in
  let* st := searchTermsLoop searchTerms st in
  let st := containsLoop (orEmpty containsQuery) st in
  betweenLoop (orEmpty betweenQuery) st.

Definition filterResult (st : bstate) : option string :=
  if (0 <? String.length (expression st))%nat then Some (expression st)
  else None.

Definition buildFilterExpression (keySchema : list key_element)
  (keyValuePairs : obj value) (containsQuery : option (obj value))
  (betweenQuery : option (obj value))
  (names : obj string) (values : obj value)
  : result (option string * obj string * obj value) :=
  let* st := buildFilterState keySchema keyValuePairs containsQuery
                              betweenQuery names values in
  Ok (filterResult st, expressionAttributeNames st,
      expressionAttributeValues st).

(* ================================================================== *)
(** ** The store, promises and page aggregation *)

Definition item : Type := obj value.

(** What one [dynamo.query] / [dynamo.scan] call answers: a page with an
    optional [LastEvaluatedKey], or a failure. The store is scripted: the
    n-th call of an operation receives the n-th response; a store whose
    script is exhausted never answers. *)
Inductive response : Type :=
| Page (Items : list item) (LastEvaluatedKey : option item)
| Failure (err : js_error).

(** How the promise returned to the caller settles. *)
Inductive outcome (A : Type) : Type :=
| Fulfilled (a : A)
| Rejected (e : js_error)
| Pending.
Arguments Fulfilled {A} a.
Arguments Rejected {A} e.
Arguments Pending {A}.

(** [getPage(startKey)] inside [getAllPages]: settles the inner promise. *)
Fixpoint getPage (store : list response) (items : list item)
  (startKey : option item) {struct store} : outcome (list item) :=
  match startKey with
  | None => Fulfilled items
  | Some _ =>
      match store with
      | [] => Pending
      | Failure err :: _ => Rejected err
      | Page pageItems next :: rest => getPage rest (items ++ pageItems)%list next
      end
  end.



(** [R.map(f, items)] for an [f] that may throw. *)
Fixpoint map_result {A B} (f : A -> result B) (l : list A) : result (list B) :=
  match l with
  | [] => Ok []
  | a :: rest =>
      let* b := f a in
      let* bs := map_result f rest in
      Ok (b :: bs)
  end.

(** The promise chain of [query] once the parameters are built:
    [dynamo.query(p).then(result => { getAllPages(result).then(all =>
    resolve(...)) }, err => reject(err))]. The inner [then] has no
    rejection handler and its promise is not returned. *)
Definition query_pages (mapItem : item -> result item) (store : list response)
  : outcome (list item) :=
  match store with
  | [] => Pending
  | Failure err :: _ => Rejected err
  | Page items next :: rest =>
      match getPage rest items next with
      | Fulfilled allItems =>
          match map_result mapItem allItems with
          | Ok mapped => Fulfilled mapped
          | Throw _ => Pending
          end
      | Rejected _ => Pending
      | Pending => Pending
      end
  end.

(** The promise chain of [scan]: [return dynamo.scan(p).then(result =>
    { ...; return getAllPages(result).then(all => R.map(...)) })]. *)
Definition scan_pages (mapItem : item -> result item) (store : list response)
  : outcome (list item) :=
  match store with
  | [] => Pending
  | Failure err :: _ => Rejected err
  | Page items next :: rest =>
      match getPage rest items next with
      | Fulfilled allItems =>
          match map_result mapItem allItems with
          | Ok mapped => Fulfilled mapped
          | Throw e => Rejected e
          end
      | Rejected e => Rejected e
      | Pending => Pending
      end
  end.

(* ================================================================== *)
(** ** [scan] and [query] *)

Record scan_params : Type := {
  s_TableName : string;
  s_ExpressionAttributeNames : option (obj string);
  s_ExpressionAttributeValues : option (obj value);
  s_FilterExpression : option string
}.

Record query_params : Type := {
  q_TableName : string;
  q_IndexName : option string;
  q_ExpressionAttributeNames : obj string;
  q_ExpressionAttributeValues : obj value;
  q_KeyConditionExpression : string;
  q_FilterExpression : option string
}.

(** Lines 305-308 of [scan]: the in-place rename of a list-valued sort key
    in the object the caller handed over. *)
Definition renameSortKey (t : DynamoTable) (keyValueParameters : obj value)
  : obj value :=
  if truthyName (sortKey t)
     && truthy (obj_get keyValueParameters (propertyKey (sortKey t)))
     && isArray (obj_get keyValueParameters (propertyKey (sortKey t)))
  then
    let renamed :=
      obj_set keyValueParameters (propertyKey (sortKey t) ++ "_filterable")
              (obj_get keyValueParameters (propertyKey (sortKey t))) in
    obj_delete renamed (propertyKey (sortKey t))
  else keyValueParameters.

(** The parameters [scan] sends, built from the object after the rename. *)
Definition scanParams (t : DynamoTable) (keyValueParameters : obj value)
  (containsQuery : option (obj value))
  (betweenQuery : option (obj value)) : result scan_params :=
  if (0 <? List.length (obj_keys keyValueParameters))%nat then
    let* built := buildFilterExpression (KeySchema (tableDesc t))
                    keyValueParameters containsQuery betweenQuery [] [] in
    let '(filter, names, values) := built in
    Ok {| s_TableName := tableName t;
          s_ExpressionAttributeNames := Some names;
          s_ExpressionAttributeValues := Some values;
          s_FilterExpression := filter |}
  else
    Ok {| s_TableName := tableName t;
          s_ExpressionAttributeNames := None;
          s_ExpressionAttributeValues := None;
          s_FilterExpression := None |}.

(** [scan] on the object it works on. Returns what the call produces (a
    synchronous throw, or a promise) and the object as the call leaves it. *)
Definition scan_on (t : DynamoTable) (mapItem : item -> result item)
  (store : list response) (keyValueParameters : obj value)
  (containsQuery : option (obj value))
  (betweenQuery : option (obj value))
  : result (outcome (list item)) * obj value :=
  let keyValueParameters := renameSortKey t keyValueParameters in
  (let* _ := scanParams t keyValueParameters containsQuery betweenQuery in
   Ok (scan_pages mapItem store),
   keyValueParameters).

(** [scan(keyValueParameters, ...)]: the argument may be omitted, in which
    case [keyValueParameters || {}] is a fresh object the caller never sees. *)
Definition scan (t : DynamoTable) (mapItem : item -> result item)
  (store : list response) (keyValueParameters : option (obj value))
  (containsQuery : option (obj value))
  (betweenQuery : option (obj value))
  : result (outcome (list item)) * option (obj value) :=
  let '(r, after) := scan_on t mapItem store (orEmpty keyValueParameters)
                             containsQuery betweenQuery in
  (r, match keyValueParameters with Some _ => Some after | None => None end).

(** The parameters [query] sends when a key schema was selected. *)
Definition queryParams (t : DynamoTable) (sel_name : option string)
  (schema : list key_element) (keyValueParameters : obj value)
  (containsQuery : option (obj value))
  (betweenQuery : option (obj value)) : result query_params :=
  let* kc := buildKeyConditionExpression schema keyValueParameters [] [] in
  let* built := buildFilterExpression schema keyValueParameters containsQuery
                  betweenQuery (expressionAttributeNames kc)
                  (expressionAttributeValues kc) in
  let '(filter, names, values) := built in
  Ok {| q_TableName := tableName t;
        q_IndexName := sel_name;
        q_ExpressionAttributeNames := names;
        q_ExpressionAttributeValues := values;
        q_KeyConditionExpression := expression kc;
        q_FilterExpression := filter |}.

(** What [query] decides before it touches the store. *)
Inductive plan : Type :=
| IssueQuery (params : query_params)
| FallBackToScan.

Definition query_plan (t : DynamoTable) (keyValueParameters : obj value)
  (containsQuery : option (obj value))
  (betweenQuery : option (obj value)) : result plan :=
  let* sel := select_index t keyValueParameters in
  match matchingKeySchema sel with
  | None => Ok FallBackToScan
  | Some schema =>
      let* params := queryParams t (sel_IndexName sel) schema
                       keyValueParameters containsQuery betweenQuery in
      Ok (IssueQuery params)
  end.

(** [query(keyValueParameters, ...)]: everything runs inside the promise
    executor, so a throw rejects the promise. *)
Definition query (t : DynamoTable) (mapItem : item -> result item)
  (store : list response) (keyValueParameters : option (obj value))
  (containsQuery : option (obj value))
  (betweenQuery : option (obj value))
  : outcome (list item) * option (obj value) :=
  let kvp := orEmpty keyValueParameters in
  match query_plan t kvp containsQuery betweenQuery with
  | Throw e => (Rejected e, keyValueParameters)
  | Ok (IssueQuery _) => (query_pages mapItem store, keyValueParameters)
  | Ok FallBackToScan =>
      let '(r, after) := scan_on t mapItem store kvp containsQuery
                                 betweenQuery in
      (match r with Ok o => o | Throw e => Rejected e end,
       match keyValueParameters with Some _ => Some after | None => None end)
  end.

(* ================================================================== *)
(** ** [putItem]: items as mutable objects on a heap

    [putItem] copies the item with [toPlainObject] and then deletes
    properties in place, so objects are modelled by reference here: a heap
    is a list of objects and [HRef a] points at the [a]-th of them. *)

Inductive hval : Type :=
| HUndefined
| HNull
| HBool (b : bool)
| HNum (n : Z)
| HStr (s : string)
| HRef (addr : nat).

Definition heap : Type := list (obj hval).

Definition heap_props (h : heap) (a : nat) : obj hval := nth a h [].

Fixpoint heap_update (h : heap) (a : nat) (o : obj hval) : heap :=
  match h, a with
  | [], _ => []
  | _ :: rest, O => o :: rest
  | x :: rest, S a' => x :: heap_update rest a' o
  end.

Definition heap_alloc (h : heap) (o : obj hval) : heap * hval :=
  ((h ++ [o])%list, HRef (List.length h)).

(** [toPlainObject]: a new object receiving, one by one, the own
    properties of [obj]. Property values are copied as they are, so nested
    objects are shared between the copy and the original. The own
    enumerable properties of a string are its characters, by index. *)
Fixpoint stringProps (s : string) (index : nat) : obj hval :=
  match s with
  | EmptyString => []
  | String c rest => (dec index, HStr (String c EmptyString))
                     :: stringProps rest (S index)
  end.

Definition toPlainObject (h : heap) (o : hval) : heap * hval :=
  let own := match o with
             | HRef a => heap_props h a
             | HStr s => stringProps s 0
             | _ => []
             end in
  heap_alloc h (fold_left (fun plainObj kv => obj_set plainObj (fst kv) (snd kv))
                          own []).

(** [deleteEmptyStrings]; the recursion follows references, so it is
    bounded by [fuel] (a cyclic item recurses forever). A property deleted
    before the enumeration reaches it is skipped. *)
Fixpoint deleteEmptyStrings (fuel : nat) (h : heap) (o : hval)
  : option (result heap) :=
  match fuel with
  | O => None
  | S fuel' =>
      match o with
      | HNull => Some (Ok h)
      | HRef a =>
          (fix each (keys : list string) (h : heap) : option (result heap) :=
             match keys with
             | [] => Some (Ok h)
             | i :: rest =>
                 match obj_lookup (heap_props h a) i with
                 | Some (HStr s) =>
                     if s =? "" then
                       each rest (heap_update h a (obj_delete (heap_props h a) i))
                     else each rest h
                 | Some HNull => each rest h
                 | Some (HRef b) =>
                     match deleteEmptyStrings fuel' h (HRef b) with
                     | Some (Ok h') => each rest h'
                     | other => other
                     end
                 | _ => each rest h
                 end
             end) (obj_keys (heap_props h a)) h
      | _ => Some (Throw (Error "Invalid object"))
      end
  end.

(** The immutable tree an object denotes in a heap: what the document
    client serialises, or what a caller reads off an item. *)
Fixpoint snapshot (fuel : nat) (h : heap) (v : hval) : option value :=
  match v with
  | HUndefined => Some VUndefined
  | HNull => Some VNull
  | HBool b => Some (VBool b)
  | HNum n => Some (VNum n)
  | HStr s => Some (VStr s)
  | HRef a =>
      match fuel with
      | O => None
      | S fuel' =>
          (fix props (o : obj hval) : option value :=
             match o with
             | [] => Some (VObj [])
             | (k, v') :: rest =>
                 match snapshot fuel' h v', props rest with
                 | Some sv, Some (VObj srest) => Some (VObj ((k, sv) :: srest))
                 | _, _ => None
                 end
             end) (heap_props h a)
      end
  end.

(** The observable result of one [putItem] call. *)
Record put_run : Type := {
  put_promise : outcome hval;        (* how the returned promise settles *)
  put_Item : option value;           (* [params.Item] as sent to the store *)
  put_heap : heap                    (* the heap the caller is left with *)
}.

(** [putItem(item)]. [objectConstructor] stands for [newObject(constructor,
    [item])]; [putFails] scripts the answer of [dynamo.put]. *)
Definition putItem (objectConstructor : option (heap -> hval -> heap * result hval))
  (putFails : option js_error) (fuel : nat) (h : heap) (it : hval)
  : option (result put_run) :=
  let '(h, constructed) :=
    match objectConstructor with
    | Some construct => construct h it
    | None => (h, Ok it)
    end in
  match constructed with
  | Throw err =>
      Some (Ok {| put_promise := Rejected err; put_Item := None; put_heap := h |})
  | Ok it =>
      let '(h, plainItem) := toPlainObject h it in
      match deleteEmptyStrings fuel h plainItem with
      | None => None
      | Some (Throw e) => Some (Throw e)
      | Some (Ok h) =>
          match snapshot fuel h plainItem with
          | None => None
          | Some sent =>
              Some (Ok {| put_promise := match putFails with
                                         | None => Fulfilled it
                                         | Some err => Rejected err
                                         end;
                          put_Item := Some sent;
                          put_heap := h |})
          end
      end
  end.

(** What the caller sees when reading the value a promise resolved with. *)
Definition resolved_view (fuel : nat) (r : put_run) : option value :=
  match put_promise r with
  | Fulfilled v => snapshot fuel (put_heap r) v
  | _ => None
  end.

(* ================================================================== *)
(** ** The example application's table

    The [people] table of the example application: partition key
    [location], sort key [id], one global secondary index [byEmail]. *)

Definition people_schema : list key_element :=
  [ {| AttributeName := "location"; KeyType := HASH |};
    {| AttributeName := "id"; KeyType := RANGE |} ].

Definition byEmail : index_desc :=
  {| IndexName := "byEmail";
     IndexKeySchema := [ {| AttributeName := "email"; KeyType := HASH |} ] |}.

Definition people_desc : table_desc :=
  {| TableName := "people";
     KeySchema := people_schema;
     LocalSecondaryIndexes := None;
     GlobalSecondaryIndexes := Some [byEmail];
     ItemCount := 0 |}.

Definition people : DynamoTable :=
  {| tableName := "people";
     partitionKey := "location";
     sortKey := Some "id";
     itemCount := 0;
     tableDesc := people_desc |}.

(** A table without a sort key. *)
Definition sessions : DynamoTable :=
  {| tableName := "sessions";
     partitionKey := "token";
     sortKey := None;
     itemCount := 0;
     tableDesc := {| TableName := "sessions";
                     KeySchema := [ {| AttributeName := "token";
                                       KeyType := HASH |} ];
                     LocalSecondaryIndexes := None;
                     GlobalSecondaryIndexes := None;
                     ItemCount := 0 |} |}.

Definition keepItem (it : item) : result item := Ok it.

(** An absent index list ([undefined]) behaves as one without candidates. *)
Definition indexes (o : option (list index_desc)) : list index_desc :=
  match o with Some l => l | None => [] end.

(* ================================================================== *)
(** ** The placeholders a filter expression generates

    The assignments to the two placeholder objects, listed per clause in
    the order in which [buildFilterExpression] performs them. *)

Definition is_digit (c : ascii) : bool :=
  (48 <=? nat_of_ascii c)%nat && (nat_of_ascii c <=? 57)%nat.

Definition all_digits (s : string) : bool :=
  forallb is_digit (list_ascii_of_string s).

(** What [split('.').join('_')] does to one character. *)
Definition undot (c : ascii) : ascii :=
  if Ascii.eqb c dot then "_"%char else c.

(** The last character of the string, if any, is not a decimal digit. *)
Fixpoint ends_plain (s : string) : bool :=
  match s with
  | EmptyString => true
  | String c EmptyString => negb (is_digit c)
  | String _ rest => ends_plain rest
  end.

Fixpoint distinctb (l : list string) : bool :=
  match l with
  | [] => true
  | x :: rest => negb (existsb (String.eqb x) rest) && distinctb rest
  end.

(** The name placeholders of the segments of one attribute path, and the
    text by which the path is referenced in the expression. *)
Definition partNames (key : string) : list string :=
  map (fun index => "#" ++ dotless key ++ dec index)
      (seq 0 (List.length (split dot key))).

Definition keyPlaceholderOf (key : string) : string := join "." (partNames key).

Definition name_writes (key : string) : list (string * string) :=
  combine (partNames key) (split dot key).

Definition inNames (key : string) (values : list value) : list string :=
  map (fun index => dotless (":" ++ key ++ dec index))
      (seq 0 (List.length values)).

Definition term_value_writes (key : string) (v : value) : list (string * value) :=
  match v with
  | VArr values => combine (inNames key values) values
  | _ => [(dotless (":" ++ key), v)]
  end.

Definition contains_value_writes (key : string) (v : value)
  : list (string * value) := [(dotless (":" ++ key), v)].

(** A range entry read as the pair [(values[0], values[1])]. *)
Definition bounds (values : value) : result (value * value) :=
  let* low := element values 0 in
  let* high := element values 1 in
  Ok (low, high).

Fixpoint rangeBounds (betweenQuery : obj value) : result (obj (value * value)) :=
  match betweenQuery with
  | [] => Ok []
  | (key, values) :: rest =>
      let* b := bounds values in
      let* others := rangeBounds rest in
      Ok ((key, b) :: others)
  end.

(** What [addBetweenQueryToExpression] does once the two elements of the
    entry have been read, and the loop over entries so read. *)
Definition addBoundsToExpression (key : string) (values : value * value)
  (st : bstate) : bstate :=
  let '(keyPlaceholder, st) := buildKeyPlaceholder key st in
  let p1 := dotless (":" ++ key ++ "1") in
  if negb (truthy (fst values)) then
    let st := emit st (keyPlaceholder ++ " <= " ++ p1) in
    set_value st p1 (snd values)
  else if negb (truthy (snd values)) then
    let st := emit st (keyPlaceholder ++ " >= " ++ p1) in
    set_value st p1 (fst values)
  else
    let p2 := dotless (":" ++ key ++ "2") in
    let st := emit st (keyPlaceholder ++ " BETWEEN " ++ p1 ++ " AND " ++ p2) in
    let st := set_value st p1 (fst values) in
    set_value st p2 (snd values).

Fixpoint boundsLoop (pairs : obj (value * value)) (st : bstate) : bstate :=
  match pairs with
  | [] => st
  | (key, values) :: rest =>
      boundsLoop rest (addBoundsToExpression key values (andIfNonEmpty st))
  end.

Definition between_value_writes (key : string) (values : value * value)
  : list (string * value) :=
  let p1 := dotless (":" ++ key ++ "1") in
  let p2 := dotless (":" ++ key ++ "2") in
  if negb (truthy (fst values)) then [(p1, snd values)]
  else if negb (truthy (snd values)) then [(p1, fst values)]
  else [(p1, fst values); (p2, snd values)].

Definition generated_names (searchTerms containsQuery : obj value)
  (betweenQuery : obj (value * value)) : list (string * string) :=
  (flat_map (fun kv => name_writes (fst kv)) searchTerms
   ++ flat_map (fun kv => name_writes (fst kv)) containsQuery
   ++ flat_map (fun kv => name_writes (fst kv)) betweenQuery)%list.

Definition generated_values (searchTerms containsQuery : obj value)
  (betweenQuery : obj (value * value)) : list (string * value) :=
  (flat_map (fun kv => term_value_writes (fst kv) (snd kv)) searchTerms
   ++ flat_map (fun kv => contains_value_writes (fst kv) (snd kv)) containsQuery
   ++ flat_map (fun kv => between_value_writes (fst kv) (snd kv)) betweenQuery)%list.

(** Assignments [o[k] = v] performed one after the other. *)
Definition assign_all {A} (writes : list (string * A)) (o : obj A) : obj A :=
  fold_left (fun o kv => obj_set o (fst kv) (snd kv)) writes o.

(** No placeholder is generated for two different things. *)
Definition functional {A} (writes : list (string * A)) : Prop :=
  forall p a b, In (p, a) writes -> In (p, b) writes -> a = b.

(** The attribute paths that reach the filter expression. *)
Definition filter_paths (searchTerms containsQuery : obj value)
  (betweenQuery : obj (value * value)) : list string :=
  (obj_keys searchTerms ++ obj_keys containsQuery ++ obj_keys betweenQuery)%list.

(** [v.constructor] can be read. *)
Definition hasConstructor (v : value) : bool :=
  match v with VUndefined | VNull => false | _ => true end.

(* ================================================================== *)
(** ** Scripted stores and example items *)

(** A response that announces a further page. *)
Definition continues (r : response) : Prop :=
  exists items key, r = Page items (Some key).

Definition page1 : list item := [[("id", VStr "1")]; [("id", VStr "2")]].
Definition page2 : list item := [[("id", VStr "3")]].
Definition tokenAfter1 : item := [("location", VStr "NY"); ("id", VStr "2")].

(** The item of the putItem example, {a: "", b: {c: "", d: "x"}}: object 0
    is the item, object 1 is the nested object it refers to. *)
Definition example_heap : heap :=
  [ [("a", HStr ""); ("b", HRef 1)];
    [("c", HStr ""); ("d", HStr "x")] ].

(** A placeholder made of the sigil [c], a sanitised path [d] that does
    not end in a digit, and a numeric suffix. *)
Definition owned (c : ascii) (p d : string) : Prop :=
  ends_plain d = true
  /\ exists suffix, all_digits suffix = true /\ p = String c (d ++ suffix).

(** The same assignments, grouped by clause and labelled with the
    sanitised attribute path of the clause. *)
Definition name_clauses (searchTerms containsQuery : obj value)
  (betweenQuery : obj (value * value)) : list (string * list (string * string)) :=
  map (fun key => (dotless key, name_writes key))
      (filter_paths searchTerms containsQuery betweenQuery).

Definition value_clauses (searchTerms containsQuery : obj value)
  (betweenQuery : obj (value * value)) : list (string * list (string * value)) :=
  (map (fun kv => (dotless (fst kv), term_value_writes (fst kv) (snd kv)))
       searchTerms
   ++ map (fun kv => (dotless (fst kv), contains_value_writes (fst kv) (snd kv)))
          containsQuery
   ++ map (fun kv => (dotless (fst kv), between_value_writes (fst kv) (snd kv)))
          betweenQuery)%list.

(** A query of the example application: people of one location, living
    in one of two cities, by last name, first-name fragment and age. *)
Definition example_filter : obj value :=
  [("location", VStr "NY");
   ("address.city", VArr [VStr "Paris"; VStr "Rome"]);
   ("lastName", VStr "Doe")].

Definition example_contains : obj value := [("firstName", VStr "Jo")].

Definition example_range : obj value := [("age", VArr [VNum 18; VNum 65])].

Definition example_bounds : obj (value * value) := [("age", (VNum 18, VNum 65))].

(* ================================================================== *)
(** ** [getItem], [deleteItem] and [rawQuery] *)




(** [rawQuery(queryParams)]: sets [TableName] in the caller's object,
    issues one [dynamo.query] call and maps the items of its answer. *)
Definition rawQuery (t : DynamoTable) (mapItem : item -> result item)
  (store : list response) (queryParams : obj value)
  : outcome (list item) * obj value :=
  let queryParams := obj_set queryParams "TableName" (VStr (tableName t)) in
  (match store with
   | [] => Pending
   | Failure err :: _ => Rejected err
   | Page items _ :: _ =>
       match map_result mapItem items with
       | Ok mapped => Fulfilled mapped
       | Throw e => Rejected e
       end
   end,
   queryParams).

(** The parameters a [scan] call sends for the arguments it is given. *)
Definition scan_request (t : DynamoTable) (keyValueParameters : option (obj value))
  (containsQuery : option (obj value))
  (betweenQuery : option (obj value)) : result scan_params :=
  scanParams t (renameSortKey t (orEmpty keyValueParameters))
             containsQuery betweenQuery.

(* ================================================================== *)
(** ** [DynamoTableCollection] *)

(** [buildTableFromName]; [tableDescriptions] are the [Table] members of
    the describeTable results, [tablePrefix] may be [undefined]. *)
Definition searchTerm (tablePrefix : option string) (name : string) : string :=
  if truthyName tablePrefix then propertyKey tablePrefix ++ name else name.

Definition buildTableFromName (tableDescriptions : list table_desc)
  (tablePrefix : option string) (name : string) : result (option DynamoTable) :=
  match find (fun d => TableName d =? searchTerm tablePrefix name)
             tableDescriptions with
  | None => Ok None
  | Some foundTable =>
      let* table := new_DynamoTable (Some foundTable) in
      Ok (Some table)
  end.

(** [name.startsWith(prefix)]. *)
Definition startsWith (name pre : string) : bool := String.prefix pre name.

Definition tablesToRetrieve (tablePrefix : option string)
  (tableNames : list string) : list string :=
  if truthyName tablePrefix
  then filter (fun name => startsWith name (propertyKey tablePrefix)) tableNames
  else tableNames.

(** [initialize]: [listTables] is the answer of [dynamo.listTables],
    [describeTable] the answer of [dynamo.describeTable] per table name (a
    failed call is a [Throw]). The describe calls are awaited together;
    when several fail, the model reports the first in request order. The
    fulfilled value is the [people] member the call has set. *)
Definition initialize (tablePrefix : option string)
  (listTables : result (list string))
  (describeTable : string -> result table_desc)
  : outcome (option DynamoTable) :=
  match listTables with
  | Throw err => Rejected err
  | Ok tableNames =>
      match map_result describeTable (tablesToRetrieve tablePrefix tableNames) with
      | Throw err => Rejected err
      | Ok results =>
          match buildTableFromName results tablePrefix "people" with
          | Ok people => Fulfilled people
          | Throw _ => Pending
          end
      end
  end.

(* ================================================================== *)
(** ** The stream handler: table name of a stream ARN *)

(** [arn.split(':')[5].split('/')[1]]: reading [split] of a missing part
    throws, a missing second segment is [undefined]. *)
Definition tableNameOfArn (eventSourceARN : string) : result (option string) :=
  match nth_error (split ":"%char eventSourceARN) 5 with
  | None => Throw TypeError
  | Some resource => Ok (nth_error (split "/"%char resource) 1)
  end.

(* ================================================================== *)
(** ** Vocabulary of the statements *)

(** An index whose key schema has a partition key. *)
Definition hasPartitionKey (index : index_desc) : bool :=
  match find_key HASH (IndexKeySchema index) with Some _ => true | None => false end.

(** The filter set binds the partition key of the index to a truthy value. *)
Definition partitionBound (keyValueParameters : obj value) (index : index_desc)
  : bool :=
  match find_key HASH (IndexKeySchema index) with
  | Some pk => truthy (obj_get keyValueParameters (AttributeName pk))
  | None => false
  end.

Definition keyNames (keySchema : list key_element) : list string :=
  map AttributeName keySchema.

(** The text of the clause of one entry, as the builders emit it. *)
Definition term_clause (key : string) (v : value) : string :=
  match v with
  | VArr values =>
      keyPlaceholderOf key ++ " IN (" ++ join "," (inNames key values) ++ ")"
  | _ => keyPlaceholderOf key ++ " = " ++ dotless (":" ++ key)
  end.

Definition contains_clause (key : string) : string :=
  "contains(" ++ keyPlaceholderOf key ++ ", " ++ dotless (":" ++ key) ++ ")".

Definition range_clause (key : string) (values : value * value) : string :=
  let p1 := dotless (":" ++ key ++ "1") in
  let p2 := dotless (":" ++ key ++ "2") in
  if negb (truthy (fst values)) then keyPlaceholderOf key ++ " <= " ++ p1
  else if negb (truthy (snd values)) then keyPlaceholderOf key ++ " >= " ++ p1
  else keyPlaceholderOf key ++ " BETWEEN " ++ p1 ++ " AND " ++ p2.

Definition filter_clauses (searchTerms containsQuery : obj value)
  (betweenQuery : obj (value * value)) : list string :=
  (map (fun kv => term_clause (fst kv) (snd kv)) searchTerms
   ++ map (fun kv => contains_clause (fst kv)) containsQuery
   ++ map (fun kv => range_clause (fst kv) (snd kv)) betweenQuery)%list.

(** A store script that answers the given pages, each but the last with a
    [LastEvaluatedKey]. *)
Definition pagesScript (pages : list (list item * item)) (lastPage : list item)
  : list response :=
  (map (fun p => Page (fst p) (Some (snd p))) pages ++ [Page lastPage None])%list.


(** An object none of whose properties refers to another object. *)
Definition isFlat (o : obj hval) : bool :=
  forallb (fun kv => match snd kv with HRef _ => false | _ => true end) o.

Definition isEmptyString (v : hval) : bool :=
  match v with HStr s => s =? "" | _ => false end.

(** The properties that are not empty strings, in order. *)
Definition withoutEmptyStrings (o : obj hval) : obj hval :=
  filter (fun kv => negb (isEmptyString (snd kv))) o.


(** The people table with two local secondary indexes and two global
    ones, to exercise declaration order. *)
Definition byLastName : index_desc :=
  {| IndexName := "byLastName";
     IndexKeySchema := [ {| AttributeName := "location"; KeyType := HASH |};
                         {| AttributeName := "lastName"; KeyType := RANGE |} ] |}.

Definition byFirstName : index_desc :=
  {| IndexName := "byFirstName";
     IndexKeySchema := [ {| AttributeName := "location"; KeyType := HASH |};
                         {| AttributeName := "firstName"; KeyType := RANGE |} ] |}.

Definition byPhone : index_desc :=
  {| IndexName := "byPhone";
     IndexKeySchema := [ {| AttributeName := "phone"; KeyType := HASH |};
                         {| AttributeName := "lastName"; KeyType := RANGE |} ] |}.

Definition indexed_desc : table_desc :=
  {| TableName := "people";
     KeySchema := people_schema;
     LocalSecondaryIndexes := Some [byLastName; byFirstName];
     GlobalSecondaryIndexes := Some [byPhone; byEmail];
     ItemCount := 0 |}.

Definition indexed : DynamoTable :=
  {| tableName := "people";
     partitionKey := "location";
     sortKey := Some "id";
     itemCount := 0;
     tableDesc := indexed_desc |}.

(** The response carries a [LastEvaluatedKey]. *)
Definition announcesMore (r : response) : bool :=
  match r with Page _ (Some _) => true | _ => false end.

(** What the loop of [deleteEmptyStrings] does to an object without
    nested objects, key by key. *)
Definition cleanKey (o : obj hval) (i : string) : obj hval :=
  match obj_lookup o i with
  | Some v => if isEmptyString v then obj_delete o i else o
  | None => o
  end.

(** A person as the example application stores it, without the address. *)
Definition flat_heap : heap :=
  [ [("location", HStr "NY"); ("id", HStr "7"); ("nickname", HStr "");
     ("age", HNum 30); ("email", HStr "x@y.com"); ("note", HStr "")] ].

(** The store describes the table under the name asked for, with a
    partition key in its key schema. *)
Definition describedWell (describeTable : string -> result table_desc)
  (name : string) : bool :=
  match describeTable name with
  | Ok d => (TableName d =? name)
            && match find_key HASH (KeySchema d) with Some _ => true | None => false end
  | Throw _ => false
  end.

(** The character does not occur in the string. *)
Definition lacks (c : ascii) (s : string) : bool :=
  forallb (fun x => negb (Ascii.eqb x c)) (list_ascii_of_string s).

(** A store that describes every table with the key schema of people. *)
Definition describeAsPeople (name : string) : result table_desc :=
  Ok {| TableName := name;
        KeySchema := people_schema;
        LocalSecondaryIndexes := None;
        GlobalSecondaryIndexes := None;
        ItemCount := 0 |}.

(* ================================================================== *)
(** * Properties *)

(** ** Plain objects *)

Section ObjectFacts.
Context {A : Type}.
Implicit Types (o : obj A) (k : string) (v : A).

Lemma obj_lookup_set_same o k v : obj_lookup (obj_set o k v) k = Some v.
Proof.
  induction o as [|[k' v'] o IH]; simpl.
  - now rewrite String.eqb_refl.
  - destruct (k' =? k) eqn:E; simpl.
    + now rewrite String.eqb_refl.
    + now rewrite E.
Qed.

Lemma obj_lookup_set_other o k k' v :
  k <> k' -> obj_lookup (obj_set o k v) k' = obj_lookup o k'.
Proof.
  intros Hne. induction o as [|[k0 v0] o IH]; simpl.
  - destruct (k =? k') eqn:E; [apply String.eqb_eq in E; contradiction | easy].
  - destruct (k0 =? k) eqn:E; simpl.
    + apply String.eqb_eq in E; subst k0.
      destruct (k =? k') eqn:E'; [apply String.eqb_eq in E'; contradiction | easy].
    + destruct (k0 =? k'); [easy | exact IH].
Qed.

Lemma obj_lookup_delete_same o k : obj_lookup (obj_delete o k) k = None.
Proof.
  induction o as [|[k' v'] o IH]; simpl; [easy|].
  destruct (k' =? k) eqn:E; simpl; [exact IH | now rewrite E].
Qed.

Lemma obj_lookup_delete_other o k k' :
  k <> k' -> obj_lookup (obj_delete o k) k' = obj_lookup o k'.
Proof.
  intros Hne. induction o as [|[k0 v0] o IH]; simpl; [easy|].
  destruct (k0 =? k) eqn:E; simpl.
  - apply String.eqb_eq in E; subst k0.
    destruct (k =? k') eqn:E'; [apply String.eqb_eq in E'; contradiction | exact IH].
  - destruct (k0 =? k'); [easy | exact IH].
Qed.
End ObjectFacts.

Lemma length_append (s1 s2 : string) :
  String.length (s1 ++ s2) = String.length s1 + String.length s2.
Proof. induction s1; simpl; congruence. Qed.

Lemma append_not_self (s suffix : string) :
  suffix <> "" -> s ++ suffix <> s.
Proof.
  intros Hs H. apply Hs.
  assert (L : String.length (s ++ suffix) = String.length s) by now rewrite H.
  rewrite length_append in L.
  destruct suffix; [easy | simpl in L; lia].
Qed.

(** ** The key of getItem and deleteItem *)


Example key_of_sessions_lookup :
  Key (getItem_params sessions (VStr "t1") VUndefined)
  = [("token", VStr "t1"); ("null", VUndefined)].
Proof. reflexivity. Qed.

(** ** The rename performed by scan *)

Lemma renameSortKey_list (t : DynamoTable) (kvp : obj value) (sk : string)
  (l : list value) :
  sortKey t = Some sk -> (sk =? "") = false ->
  obj_lookup kvp sk = Some (VArr l) ->
  renameSortKey t kvp
  = obj_delete (obj_set kvp (sk ++ "_filterable") (VArr l)) sk.
Proof.
  intros Hsk Hne Hl. unfold renameSortKey, obj_get.
  rewrite Hsk; cbn [truthyName propertyKey]. rewrite Hne, Hl. reflexivity.
Qed.

(** C9. A scan whose filter set binds the table's sort key to a list
    changes the caller's object in place: afterwards the sort-key entry is
    gone, the list sits under the name suffixed with _filterable, every
    other entry is as before; a query that falls back to scan leaves the
    caller's object in the same state. *)
Theorem scan_renames_sort_key_in_place
  (t : DynamoTable) (mapItem : item -> result item) (store : list response)
  (kvp : obj value) (cq : option (obj value))
  (bq : option (obj value)) (sk : string) (l : list value)
  (Hsk : sortKey t = Some sk) (Hne : (sk =? "") = false)
  (Hl : obj_lookup kvp sk = Some (VArr l)) :
  exists after,
    snd (scan t mapItem store (Some kvp) cq bq) = Some after
    /\ obj_lookup after sk = None
    /\ obj_lookup after (sk ++ "_filterable") = Some (VArr l)
    /\ (forall k, k <> sk -> k <> sk ++ "_filterable" ->
                  obj_lookup after k = obj_lookup kvp k)
    /\ (query_plan t kvp cq bq = Ok FallBackToScan ->
        snd (query t mapItem store (Some kvp) cq bq) = Some after).
Proof.
  exists (renameSortKey t kvp).
  assert (Hneq : sk ++ "_filterable" <> sk) by (apply append_not_self; discriminate).
  rewrite (renameSortKey_list t kvp sk l Hsk Hne Hl).
  split; [|split; [|split; [|split]]].
  - unfold scan, scan_on; cbn [orEmpty snd].
    now rewrite (renameSortKey_list t kvp sk l Hsk Hne Hl).
  - apply obj_lookup_delete_same.
  - rewrite obj_lookup_delete_other by congruence. apply obj_lookup_set_same.
  - intros k H1 H2.
    rewrite obj_lookup_delete_other by congruence.
    apply obj_lookup_set_other; congruence.
  - intros Hplan. unfold query; cbn [orEmpty]. rewrite Hplan.
    unfold scan_on; cbn [snd].
    now rewrite (renameSortKey_list t kvp sk l Hsk Hne Hl).
Qed.

Lemma scan_renames_sort_key_in_place_witness :
  sortKey people = Some "id" /\ ("id" =? "") = false
  /\ obj_lookup [("id", VArr [VStr "7"; VStr "9"]); ("lastName", VStr "Doe")] "id"
     = Some (VArr [VStr "7"; VStr "9"])
  /\ exists after,
      snd (scan people keepItem []
             (Some [("id", VArr [VStr "7"; VStr "9"]); ("lastName", VStr "Doe")])
             None None) = Some after
      /\ obj_lookup after "id" = None
      /\ obj_lookup after ("id" ++ "_filterable") = Some (VArr [VStr "7"; VStr "9"])
      /\ (forall k, k <> "id" -> k <> "id" ++ "_filterable" ->
            obj_lookup after k
            = obj_lookup [("id", VArr [VStr "7"; VStr "9"]); ("lastName", VStr "Doe")] k)
      /\ (query_plan people
            [("id", VArr [VStr "7"; VStr "9"]); ("lastName", VStr "Doe")] None None
          = Ok FallBackToScan ->
          snd (query people keepItem []
                 (Some [("id", VArr [VStr "7"; VStr "9"]); ("lastName", VStr "Doe")])
                 None None) = Some after).
Proof.
  split; [reflexivity | split; [reflexivity | split; [reflexivity |]]].
  apply (scan_renames_sort_key_in_place people keepItem [] _ None None "id"
           [VStr "7"; VStr "9"]); reflexivity.
Defined.

Example query_fallback_mutates_caller :
  query people keepItem []
        (Some [("id", VArr [VStr "7"; VStr "9"]); ("lastName", VStr "Doe")])
        None None
  = (Pending, Some [("lastName", VStr "Doe"); ("id_filterable", VArr [VStr "7"; VStr "9"])]).
Proof. reflexivity. Qed.

(** ** Index selection *)

(** C1 as stated fails: on the people table, a query binding [location]
    (the partition key) and [email] has no exact primary fit and no local
    index, yet the global index byEmail, an exact fit, is what is selected. *)
Lemma primary_not_final_counterexample :
  ~ (forall (t : DynamoTable) (kvp : obj value),
        truthy (obj_get kvp (partitionKey t)) = true ->
        isScalar (obj_get kvp (partitionKey t)) = true ->
        fitsParamsExactly kvp (KeySchema (tableDesc t)) = false ->
        find_exact_index kvp (indexes (LocalSecondaryIndexes (tableDesc t))) = None ->
        select_index t kvp = Ok (select_primary t)).
Proof.
  intros claim.
  specialize (claim people [("location", VStr "NY"); ("email", VStr "x@y.com")]
                eq_refl eq_refl eq_refl eq_refl).
  discriminate claim.
Qed.

(** C1, amended. When the filter set holds a present scalar for the
    table's partition key and neither the primary schema nor any local
    index is an exact fit, the global indexes are still scanned for an
    exact fit: the first one found overrides the tentative primary
    selection, and only when there is none is the primary schema (a
    partition-only query) the final selection. *)
Theorem partition_only_selection (t : DynamoTable) (kvp : obj value)
  (Hpresent : truthy (obj_get kvp (partitionKey t)) = true)
  (Hscalar : isScalar (obj_get kvp (partitionKey t)) = true)
  (Hprimary : fitsParamsExactly kvp (KeySchema (tableDesc t)) = false)
  (Hlocal : find_exact_index kvp (indexes (LocalSecondaryIndexes (tableDesc t)))
            = None) :
  select_index t kvp
  = Ok match find_exact_index kvp (indexes (GlobalSecondaryIndexes (tableDesc t))) with
       | Some index => select_index_desc index
       | None => select_primary t
       end.
Proof.
  unfold select_index. rewrite Hprimary, Hpresent.
  assert (Hfirst :
    match LocalSecondaryIndexes (tableDesc t) with
    | Some lsis =>
        match find_exact_index kvp lsis with
        | Some index => (select_index_desc index, true)
        | None => (select_primary t, false)
        end
    | None => (select_primary t, false)
    end = (select_primary t, false)).
  { destruct (LocalSecondaryIndexes (tableDesc t)) as [lsis|]; [|reflexivity].
    cbn [indexes] in Hlocal. now rewrite Hlocal. }
  rewrite Hfirst.
  destruct (GlobalSecondaryIndexes (tableDesc t)) as [gsis|]; cbn [indexes].
  - destruct (find_exact_index kvp gsis); reflexivity.
  - reflexivity.
Qed.

Lemma partition_only_selection_witness :
  truthy (obj_get [("location", VStr "NY"); ("email", VStr "x@y.com")]
                  (partitionKey people)) = true
  /\ isScalar (obj_get [("location", VStr "NY"); ("email", VStr "x@y.com")]
                       (partitionKey people)) = true
  /\ fitsParamsExactly [("location", VStr "NY"); ("email", VStr "x@y.com")]
                       (KeySchema (tableDesc people)) = false
  /\ find_exact_index [("location", VStr "NY"); ("email", VStr "x@y.com")]
                      (indexes (LocalSecondaryIndexes (tableDesc people))) = None
  /\ select_index people [("location", VStr "NY"); ("email", VStr "x@y.com")]
     = Ok (select_index_desc byEmail).
Proof.
  repeat (split; [reflexivity|]).
  apply (partition_only_selection people
           [("location", VStr "NY"); ("email", VStr "x@y.com")]); reflexivity.
Defined.

(** Without an exact global fit the tentative primary selection stands,
    even when a global index matches on its partition key alone. *)
Example partition_only_beats_partial_global :
  select_index
    {| tableName := "people"; partitionKey := "location"; sortKey := Some "id";
       itemCount := 0;
       tableDesc :=
         {| TableName := "people"; KeySchema := people_schema;
            LocalSecondaryIndexes := None;
            GlobalSecondaryIndexes :=
              Some [ {| IndexName := "byEmailName";
                        IndexKeySchema :=
                          [ {| AttributeName := "email"; KeyType := HASH |};
                            {| AttributeName := "lastName"; KeyType := RANGE |} ] |} ];
            ItemCount := 0 |} |}
    [("location", VStr "NY"); ("email", VStr "x@y.com")]
  = Ok {| sel_IndexName := None; matchingKeySchema := Some people_schema |}.
Proof. reflexivity. Qed.

(** A list bound to the table's partition key is truthy, so the selection
    never falls through to a scan on its account. *)
Lemma list_partition_key_selects (t : DynamoTable) (kvp : obj value)
  (l : list value) :
  obj_get kvp (partitionKey t) = VArr l ->
  exists sel, select_index t kvp = Ok sel /\ matchingKeySchema sel <> None.
Proof.
  intros Hl. unfold select_index. rewrite Hl; cbn [truthy].
  destruct (fitsParamsExactly kvp (KeySchema (tableDesc t))).
  { eexists; split; [reflexivity | discriminate]. }
  destruct (LocalSecondaryIndexes (tableDesc t)) as [lsis|].
  - destruct (find_exact_index kvp lsis) as [index|].
    + eexists; split; [reflexivity | discriminate].
    + destruct (GlobalSecondaryIndexes (tableDesc t)) as [gsis|].
      * destruct (find_exact_index kvp gsis);
          eexists; (split; [reflexivity | discriminate]).
      * eexists; split; [reflexivity | discriminate].
  - destruct (GlobalSecondaryIndexes (tableDesc t)) as [gsis|].
    + destruct (find_exact_index kvp gsis);
        eexists; (split; [reflexivity | discriminate]).
    + eexists; split; [reflexivity | discriminate].
Qed.

(** C2. What the code does where the claim fails: with [location] bound
    to a list, the partition-present step selects the primary schema and
    the query is issued with the list inside the key condition; with
    [email] bound to a list, the partial global-match step selects
    byEmail. In both cases the list counts as present. *)
Theorem list_key_counts_as_present :
  select_index people [("location", VArr [VStr "NY"; VStr "LA"])]
  = Ok (select_primary people)
  /\ query_plan people [("location", VArr [VStr "NY"; VStr "LA"])] None None
     = Ok (IssueQuery
             {| q_TableName := "people";
                q_IndexName := None;
                q_ExpressionAttributeNames := [("#location", "location")];
                q_ExpressionAttributeValues :=
                  [(":location", VArr [VStr "NY"; VStr "LA"])];
                q_KeyConditionExpression := "#location = :location";
                q_FilterExpression := None |})
  /\ fitsParamsExactly [("email", VArr [VStr "a@b.c"; VStr "d@e.f"])]
                       (IndexKeySchema byEmail) = false
  /\ select_index people [("email", VArr [VStr "a@b.c"; VStr "d@e.f"])]
     = Ok (select_index_desc byEmail).
Proof. repeat split. Qed.

(** ** The key condition *)

Lemma append_assoc (a b c : string) : (a ++ b) ++ c = a ++ (b ++ c).
Proof. induction a; simpl; congruence. Qed.

Lemma append_empty_r (a : string) : a ++ "" = a.
Proof. induction a; simpl; congruence. Qed.

(** [buildKeyConditionExpression] throws the missing-partition-key error
    exactly when the value bound to the partition key is falsy. *)
Lemma keyCondition_missing_iff_falsy (keySchema : list key_element)
  (pk : key_element) (kvp : obj value) (names : obj string) (values : obj value) :
  find_key HASH keySchema = Some pk ->
  (buildKeyConditionExpression keySchema kvp names values
   = Throw (Error ("Partition key " ++ AttributeName pk ++ " is required"))
   <-> truthy (obj_get kvp (AttributeName pk)) = false).
Proof.
  intros Hpk. unfold buildKeyConditionExpression. rewrite Hpk.
  destruct (truthy (obj_get kvp (AttributeName pk))); cbn [negb].
  - split; [|discriminate].
    destruct (find_key RANGE keySchema) as [sk|];
      [destruct (truthy (obj_get kvp (AttributeName sk)))|]; discriminate.
  - split; reflexivity.
Qed.

(** With a truthy value the expression starts with the partition equality
    and both placeholders are bound to the real name and value. *)
Lemma keyCondition_partition_clause (keySchema : list key_element)
  (pk : key_element) (kvp : obj value) :
  find_key HASH keySchema = Some pk ->
  truthy (obj_get kvp (AttributeName pk)) = true ->
  exists st rest,
    buildKeyConditionExpression keySchema kvp [] [] = Ok st
    /\ expression st
       = ("#" ++ AttributeName pk ++ " = " ++ ":" ++ AttributeName pk) ++ rest
    /\ obj_lookup (expressionAttributeNames st) ("#" ++ AttributeName pk)
       = Some (AttributeName pk)
    /\ obj_lookup (expressionAttributeValues st) (":" ++ AttributeName pk)
       = Some (obj_get kvp (AttributeName pk)).
Proof.
  intros Hpk Ht. unfold buildKeyConditionExpression. rewrite Hpk, Ht; cbn [negb].
  destruct (find_key RANGE keySchema) as [sk|].
  - destruct (truthy (obj_get kvp (AttributeName sk))).
    + eexists;
        exists (" AND " ++ "#" ++ AttributeName sk ++ " = " ++ ":" ++ AttributeName sk);
        split; [reflexivity|].
      unfold addKeyToExpression, set_name, set_value, emit; cbn.
      rewrite (String.eqb_sym (AttributeName pk)).
      destruct (AttributeName sk =? AttributeName pk) eqn:E; cbn.
      * apply String.eqb_eq in E. rewrite E. rewrite String.eqb_refl.
        split; [f_equal; rewrite append_assoc; reflexivity | split; reflexivity].
      * rewrite String.eqb_refl.
        split; [f_equal; rewrite append_assoc; reflexivity | split; reflexivity].
    + eexists; exists ""; split; [reflexivity|].
      unfold addKeyToExpression, set_name, set_value, emit; cbn.
      rewrite String.eqb_refl, append_empty_r. repeat split.
  - eexists; exists ""; split; [reflexivity|].
    unfold addKeyToExpression, set_name, set_value, emit; cbn.
    rewrite String.eqb_refl, append_empty_r. repeat split.
Qed.

(** C7. What the code does where the claim fails: a partition key bound
    to a list is not a present scalar, yet no error is raised; the key
    condition is built with the list as the value of the equality. The
    failure is, besides, raised for a present scalar that is falsy, such
    as the number 0. *)
Theorem keyCondition_accepts_list_partition_key :
  isScalar (obj_get [("location", VArr [VStr "NY"; VStr "LA"])] "location") = false
  /\ buildKeyConditionExpression people_schema
       [("location", VArr [VStr "NY"; VStr "LA"])] [] []
     = Ok {| expression := "#location = :location";
             expressionAttributeNames := [("#location", "location")];
             expressionAttributeValues :=
               [(":location", VArr [VStr "NY"; VStr "LA"])] |}
  /\ buildKeyConditionExpression people_schema [("location", VNum 0)] [] []
     = Throw (Error "Partition key location is required").
Proof. repeat split. Qed.

(** C3. What the code does where the claim fails: a list bound to the
    sort key is truthy, so [buildKeyConditionExpression] emits the sort
    equality with the list as its value; in [query] the list then appears
    in the key condition and nowhere in the filter expression. *)
Theorem keyCondition_uses_list_sort_key :
  buildKeyConditionExpression people_schema
    [("location", VStr "NY"); ("id", VArr [VStr "1"; VStr "2"])] [] []
  = Ok {| expression := "#location = :location AND #id = :id";
          expressionAttributeNames := [("#location", "location"); ("#id", "id")];
          expressionAttributeValues :=
            [(":location", VStr "NY"); (":id", VArr [VStr "1"; VStr "2"])] |}
  /\ query_plan people
       [("location", VStr "NY"); ("id", VArr [VStr "1"; VStr "2"])] None None
     = Ok (IssueQuery
             {| q_TableName := "people";
                q_IndexName := None;
                q_ExpressionAttributeNames :=
                  [("#location", "location"); ("#id", "id")];
                q_ExpressionAttributeValues :=
                  [(":location", VStr "NY"); (":id", VArr [VStr "1"; VStr "2"])];
                q_KeyConditionExpression := "#location = :location AND #id = :id";
                q_FilterExpression := None |}).
Proof. split; reflexivity. Qed.

(** ** Strings *)

Lemma split_not_nil (sep : ascii) (s : string) : split sep s <> [].
Proof.
  destruct s as [|c s]; simpl; [discriminate|].
  destruct (Ascii.eqb c sep); [discriminate|].
  destruct (split sep s); discriminate.
Qed.

Lemma dotless_String (c : ascii) (s : string) :
  dotless (String c s) = String (undot c) (dotless s).
Proof.
  unfold dotless, join, undot. simpl split.
  pose proof (split_not_nil dot s) as Hne.
  destruct (Ascii.eqb c dot).
  - destruct (split dot s) as [|h t]; [contradiction|]. reflexivity.
  - destruct (split dot s) as [|h t]; [contradiction|].
    destruct t; reflexivity.
Qed.

Lemma dotless_empty : dotless "" = "".
Proof. reflexivity. Qed.

Lemma dotless_app (a b : string) : dotless (a ++ b) = dotless a ++ dotless b.
Proof.
  induction a as [|c a IH]; [reflexivity|].
  simpl append. rewrite !dotless_String, IH. reflexivity.
Qed.

Lemma is_digit_not_dot (c : ascii) : is_digit c = true -> undot c = c.
Proof.
  unfold undot, dot. destruct (Ascii.eqb c ".") eqn:E; [|easy].
  apply Ascii.eqb_eq in E. subst c. discriminate.
Qed.

Lemma dotless_digits (s : string) : all_digits s = true -> dotless s = s.
Proof.
  unfold all_digits. induction s as [|c s IH]; [reflexivity|].
  simpl. intros H. apply andb_prop in H as [Hc Hs].
  rewrite dotless_String, (is_digit_not_dot c Hc), (IH Hs). reflexivity.
Qed.

Lemma string_of_uint_digits (d : uint) :
  all_digits (NilEmpty.string_of_uint d) = true.
Proof. unfold all_digits. induction d; simpl; auto. Qed.

Lemma dec_digits (n : nat) : all_digits (dec n) = true.
Proof. apply string_of_uint_digits. Qed.

Lemma dec_inj (n m : nat) : dec n = dec m -> n = m.
Proof.
  unfold dec. intros H.
  apply (f_equal NilEmpty.uint_of_string) in H.
  rewrite !NilEmpty.usu in H. injection H as H.
  apply (f_equal Nat.of_uint) in H.
  now rewrite !DecimalNat.Unsigned.of_to in H.
Qed.

Lemma append_inj_l (a b c : string) : a ++ b = a ++ c -> b = c.
Proof. induction a; simpl; intros H; [easy | injection H; auto]. Qed.

(** ** The key placeholder of an attribute path *)

Lemma partPlaceholders_spec (d : string) (parts : list string) (index : nat)
  (st : bstate) :
  partPlaceholders d parts index st
  = (map (fun i => "#" ++ d ++ dec i) (seq index (List.length parts)),
     {| expression := expression st;
        expressionAttributeNames :=
          assign_all (combine (map (fun i => "#" ++ d ++ dec i)
                                   (seq index (List.length parts))) parts)
                     (expressionAttributeNames st);
        expressionAttributeValues := expressionAttributeValues st |}).
Proof.
  revert index st. induction parts as [|part parts IH]; intros index st.
  - destruct st; reflexivity.
  - cbn [partPlaceholders]. rewrite IH. reflexivity.
Qed.

Lemma buildKeyPlaceholder_spec (key : string) (st : bstate) :
  buildKeyPlaceholder key st
  = (keyPlaceholderOf key,
     {| expression := expression st;
        expressionAttributeNames :=
          assign_all (name_writes key) (expressionAttributeNames st);
        expressionAttributeValues := expressionAttributeValues st |}).
Proof.
  unfold buildKeyPlaceholder. rewrite partPlaceholders_spec. reflexivity.
Qed.

(** ** Range entries *)

Lemma bounds_throws (values : value) :
  hasConstructor values = false -> bounds values = Throw TypeError.
Proof. destruct values; (discriminate || reflexivity). Qed.

Lemma bounds_succeeds (values : value) :
  hasConstructor values = true -> exists b, bounds values = Ok b.
Proof. destruct values; try discriminate; intros _; eexists; reflexivity. Qed.

(** Reading the two elements first and emitting the clause afterwards is
    what [addBetweenQueryToExpression] does. *)
Lemma addBetween_bounds (key : string) (values : value) (st : bstate) :
  addBetweenQueryToExpression key values st
  = (let* b := bounds values in Ok (addBoundsToExpression key b st)).
Proof.
  unfold addBetweenQueryToExpression, addBoundsToExpression, bounds.
  rewrite buildKeyPlaceholder_spec.
  destruct values; cbn [element bind]; try reflexivity;
    cbn [fst snd];
    match goal with
    | |- context [negb (truthy ?lo)] =>
        destruct (negb (truthy lo)); [reflexivity|]
    end;
    match goal with
    | |- context [negb (truthy ?hi)] => destruct (negb (truthy hi)); reflexivity
    end.
Qed.

Lemma betweenLoop_bounds (betweenQuery : obj value) (st : bstate) :
  betweenLoop betweenQuery st
  = (let* pairs := rangeBounds betweenQuery in Ok (boundsLoop pairs st)).
Proof.
  revert st. induction betweenQuery as [|[key values] rest IH]; intros st.
  - reflexivity.
  - cbn [betweenLoop rangeBounds]. rewrite addBetween_bounds.
    destruct (bounds values) as [b|e]; cbn [bind]; [|reflexivity].
    rewrite IH. destruct (rangeBounds rest); reflexivity.
Qed.

Lemma rangeBounds_throws (betweenQuery : obj value) :
  forallb hasConstructor (map snd betweenQuery) = false ->
  rangeBounds betweenQuery = Throw TypeError.
Proof.
  induction betweenQuery as [|[key values] rest IH]; [discriminate|].
  cbn [map snd forallb rangeBounds].
  destruct (hasConstructor values) eqn:Hv; cbn [andb]; intros H.
  - destruct (bounds_succeeds values Hv) as [b ->]. cbn [bind].
    now rewrite (IH H).
  - now rewrite (bounds_throws values Hv).
Qed.

Lemma rangeBounds_succeeds (betweenQuery : obj value) :
  forallb hasConstructor (map snd betweenQuery) = true ->
  exists pairs, rangeBounds betweenQuery = Ok pairs.
Proof.
  induction betweenQuery as [|[key values] rest IH]; [now exists []|].
  cbn [map snd forallb rangeBounds]. intros H. apply andb_prop in H as [Hv Hrest].
  destruct (IH Hrest) as [pairs Hp]. destruct (bounds_succeeds values Hv) as [b Hb].
  rewrite Hb, Hp. cbn [bind]. eexists. reflexivity.
Qed.

Example range_entry_null_throws :
  buildFilterExpression [] [("age", VNum 30)] None (Some [("num", VNull)]) [] []
  = Throw TypeError.
Proof. reflexivity. Qed.

Example range_entry_short_array :
  buildFilterExpression [] [] None (Some [("num", VArr [VNum 5])]) [] []
  = Ok (Some "#num0 >= :num1", [("#num0", "num")], [(":num1", VNum 5)]).
Proof. reflexivity. Qed.

(** ** Range clauses *)

Lemma between_placeholders_differ (key : string) :
  dotless (":" ++ key ++ "1") <> dotless (":" ++ key ++ "2").
Proof.
  rewrite !dotless_app. intros H.
  apply append_inj_l in H. apply append_inj_l in H. discriminate H.
Qed.

(** The clause emitted for a range entry, by the truthiness of its two
    bounds, together with the values bound to its placeholders. *)
Lemma between_clause (key : string) (lo hi : value) (st : bstate) :
  let st' := addBoundsToExpression key (lo, hi) st in
  let attr := keyPlaceholderOf key in
  let p1 := dotless (":" ++ key ++ "1") in
  let p2 := dotless (":" ++ key ++ "2") in
  (truthy lo = false ->
     expression st' = expression st ++ attr ++ " <= " ++ p1
     /\ obj_lookup (expressionAttributeValues st') p1 = Some hi)
  /\ (truthy lo = true -> truthy hi = false ->
     expression st' = expression st ++ attr ++ " >= " ++ p1
     /\ obj_lookup (expressionAttributeValues st') p1 = Some lo)
  /\ (truthy lo = true -> truthy hi = true ->
     expression st' = expression st ++ attr ++ " BETWEEN " ++ p1 ++ " AND " ++ p2
     /\ obj_lookup (expressionAttributeValues st') p1 = Some lo
     /\ obj_lookup (expressionAttributeValues st') p2 = Some hi).
Proof.
  cbv zeta. unfold addBoundsToExpression.
  rewrite buildKeyPlaceholder_spec. cbn [fst snd].
  split; [|split].
  - intros Hlo. rewrite Hlo. cbn. split; [reflexivity | apply obj_lookup_set_same].
  - intros Hlo Hhi. rewrite Hlo, Hhi. cbn.
    split; [reflexivity | apply obj_lookup_set_same].
  - intros Hlo Hhi. rewrite Hlo, Hhi. cbn [negb set_value emit expression
      expressionAttributeValues expressionAttributeNames].
    split; [reflexivity | split].
    + rewrite obj_lookup_set_other
        by (intros H; symmetry in H; revert H; apply between_placeholders_differ).
      apply obj_lookup_set_same.
    + apply obj_lookup_set_same.
Qed.

(** C8. What the code does where the claim fails: a bound that is present
    but falsy is treated as absent. With both bounds present, (0, 10)
    renders as an upper bound only, and (5, 0) as a lower bound only;
    (5, 10) renders as BETWEEN. *)
Theorem between_zero_bound_treated_as_absent :
  buildFilterExpression [] [] None (Some [("num", VArr [VNum 0; VNum 10])]) [] []
  = Ok (Some "#num0 <= :num1", [("#num0", "num")], [(":num1", VNum 10)])
  /\ buildFilterExpression [] [] None (Some [("num", VArr [VNum 5; VNum 0])]) [] []
     = Ok (Some "#num0 >= :num1", [("#num0", "num")], [(":num1", VNum 5)])
  /\ buildFilterExpression [] [] None (Some [("num", VArr [VNum 5; VNum 10])]) [] []
     = Ok (Some "#num0 BETWEEN :num1 AND :num2", [("#num0", "num")],
           [(":num1", VNum 5); (":num2", VNum 10)]).
Proof. repeat split. Qed.

Example between_open_ended :
  buildFilterExpression [] [] None
    (Some [("low", VArr [VUndefined; VNum 10]); ("high", VArr [VNum 5])]) [] []
  = Ok (Some "#low0 <= :low1 AND #high0 >= :high1",
        [("#low0", "low"); ("#high0", "high")],
        [(":low1", VNum 10); (":high1", VNum 5)]).
Proof. reflexivity. Qed.

(** ** Page aggregation *)

Lemma getPage_reaches_failure (pages rest : list response) (err : js_error)
  (items : list item) (key : item) :
  Forall continues pages ->
  getPage (pages ++ Failure err :: rest) items (Some key) = Rejected err.
Proof.
  intros Hpages. revert items key.
  induction Hpages as [|r pages [its [k ->]] _ IH]; intros items key.
  - reflexivity.
  - cbn. apply IH.
Qed.

Lemma getPage_concatenates (pagesItems : list (list item)) (last_ : list item)
  (keys : list item) (items : list item) (key : item) :
  List.length keys = List.length pagesItems ->
  getPage (map (fun p => Page (fst p) (Some (snd p))) (combine pagesItems keys)
             ++ [Page last_ None]) items (Some key)
  = Fulfilled (items ++ concat pagesItems ++ last_)%list.
Proof.
  revert keys items key.
  induction pagesItems as [|p ps IH]; intros keys items key Hlen.
  - destruct keys; [|discriminate]. reflexivity.
  - destruct keys as [|k keys]; [discriminate|].
    cbn. rewrite IH by (simpl in Hlen; lia).
    now rewrite <- !app_assoc.
Qed.

(** A scan rejects with the store's error wherever the failure occurs. *)
Lemma scan_pages_failure (mapItem : item -> result item)
  (pages rest : list response) (err : js_error) :
  Forall continues pages ->
  scan_pages mapItem (pages ++ Failure err :: rest) = Rejected err.
Proof.
  intros Hpages. destruct Hpages as [|r pages [its [k ->]] Hpages].
  - reflexivity.
  - cbn. now rewrite getPage_reaches_failure.
Qed.

(** A query rejects when its first call fails ... *)
Lemma query_pages_first_failure (mapItem : item -> result item)
  (rest : list response) (err : js_error) :
  query_pages mapItem (Failure err :: rest) = Rejected err.
Proof. reflexivity. Qed.

(** ... and never settles when a later call fails. *)
Lemma query_pages_later_failure (mapItem : item -> result item)
  (first : response) (pages rest : list response) (err : js_error) :
  Forall continues (first :: pages) ->
  query_pages mapItem (first :: pages ++ Failure err :: rest) = Pending.
Proof.
  intros Hpages. inversion Hpages as [|r l [its [k ->]] Hl]; subst.
  cbn. now rewrite getPage_reaches_failure.
Qed.

(** Neither operation ever fulfils with a partial list once a call fails. *)
Lemma no_partial_result (mapItem : item -> result item)
  (pages rest : list response) (err : js_error) (items : list item) :
  Forall continues pages ->
  query_pages mapItem (pages ++ Failure err :: rest) <> Fulfilled items
  /\ scan_pages mapItem (pages ++ Failure err :: rest) <> Fulfilled items.
Proof.
  intros Hpages. split.
  - destruct pages as [|first pages].
    + discriminate.
    + rewrite <- app_comm_cons, query_pages_later_failure by assumption.
      discriminate.
  - rewrite scan_pages_failure by assumption. discriminate.
Qed.

(** C5. What the code does where the claim fails: when the second page
    call of a query fails, the promise returned by [query] is neither
    rejected nor fulfilled, it stays pending; the same store makes [scan]
    reject, and a failure of the first call rejects both. *)
Theorem query_failure_mid_pagination_never_settles :
  query people keepItem
        [Page page1 (Some tokenAfter1); Failure (StoreError "Throttled")]
        (Some [("location", VStr "NY")]) None None
  = (Pending, Some [("location", VStr "NY")])
  /\ scan people keepItem
          [Page page1 (Some tokenAfter1); Failure (StoreError "Throttled")]
          (Some [("lastName", VStr "Doe")]) None None
     = (Ok (Rejected (StoreError "Throttled")), Some [("lastName", VStr "Doe")])
  /\ query people keepItem [Failure (StoreError "Throttled")]
           (Some [("location", VStr "NY")]) None None
     = (Rejected (StoreError "Throttled"), Some [("location", VStr "NY")]).
Proof. repeat split. Qed.

Example query_aggregates_pages :
  fst (query people keepItem
         [Page page1 (Some tokenAfter1); Page page2 None]
         (Some [("location", VStr "NY")]) None None)
  = Fulfilled (page1 ++ page2)%list.
Proof. reflexivity. Qed.

(** ** putItem *)

(** C6. What the code does where the claim fails: for the item
    {a: "", b: {c: "", d: "x"}} the store receives {b: {d: "x"}}, as
    claimed, but the item the promise resolves with has lost b.c too: the
    copy made before cleaning shares the nested object with the original. *)
Theorem putItem_cleans_nested_original :
  exists run,
    putItem None None 3 example_heap (HRef 0) = Some (Ok run)
    /\ snapshot 3 example_heap (HRef 0)
       = Some (VObj [("a", VStr ""); ("b", VObj [("c", VStr ""); ("d", VStr "x")])])
    /\ put_Item run = Some (VObj [("b", VObj [("d", VStr "x")])])
    /\ put_promise run = Fulfilled (HRef 0)
    /\ resolved_view 3 run
       = Some (VObj [("a", VStr ""); ("b", VObj [("d", VStr "x")])]).
Proof. eexists. repeat split. Qed.

(** ** Placeholders of the filter expression *)

(** *** Assignments in sequence *)

Section Assignments.
Context {A : Type}.
Implicit Types (w : list (string * A)) (o : obj A).

Lemma assign_all_app w1 w2 o :
  assign_all (w1 ++ w2) o = assign_all w2 (assign_all w1 o).
Proof. apply fold_left_app. Qed.

Lemma assign_all_cons k (v : A) w o :
  assign_all ((k, v) :: w) o = assign_all w (obj_set o k v).
Proof. reflexivity. Qed.

Lemma lookup_assign_all_other w o p :
  ~ In p (map fst w) -> obj_lookup (assign_all w o) p = obj_lookup o p.
Proof.
  revert o. induction w as [|[k v] w IH]; intros o Hp; [reflexivity|].
  cbn [map fst In] in Hp. rewrite assign_all_cons, IH by tauto.
  apply obj_lookup_set_other. tauto.
Qed.

(** When no placeholder is generated twice for different things, the
    object ends up binding every placeholder to what it was generated
    for. *)
Lemma lookup_assign_all w o p a :
  functional w -> In (p, a) w -> obj_lookup (assign_all w o) p = Some a.
Proof.
  revert o. induction w as [|[k v] w IH]; intros o Hf Hin; [easy|].
  assert (Hf' : functional w).
  { intros q x y Hx Hy. apply (Hf q); now right. }
  destruct (in_dec string_dec p (map fst w)) as [Hp|Hp].
  - apply in_map_iff in Hp as [[q b] [Hq Hb]]. cbn in Hq. subst q.
    assert (b = a) by (apply (Hf p); [now right | exact Hin]). subst b.
    rewrite assign_all_cons. now apply IH.
  - destruct Hin as [Heq|Hin].
    + injection Heq as -> ->. rewrite assign_all_cons.
      rewrite lookup_assign_all_other by exact Hp.
      apply obj_lookup_set_same.
    + exfalso. apply Hp. apply in_map_iff. now exists (p, a).
Qed.

Lemma functional_indexed (f : nat -> string) (l : list A) (i : nat) :
  (forall n m, f n = f m -> n = m) ->
  functional (combine (map f (seq i (List.length l))) l).
Proof.
  intros Hinj. revert i. induction l as [|x l IH]; intros i p a b Ha Hb.
  - destruct Ha.
  - cbn in Ha, Hb.
    assert (Hlater : forall y, In (p, y) (combine (map f (seq (S i) (List.length l))) l)
                               -> p <> f i).
    { intros y Hy Hp. apply in_combine_l in Hy.
      apply in_map_iff in Hy as [j [Hj Hseq]]. apply in_seq in Hseq.
      rewrite Hp in Hj. apply Hinj in Hj. lia. }
    destruct Ha as [Ha|Ha], Hb as [Hb|Hb].
    + congruence.
    + injection Ha as Hp _. exfalso. now apply (Hlater b Hb).
    + injection Hb as Hp _. exfalso. now apply (Hlater a Ha).
    + now apply (IH (S i) p).
Qed.

Lemma in_indexed (f : nat -> string) (l : list A) (i : nat) p a :
  In (p, a) (combine (map f (seq i (List.length l))) l) -> exists n, p = f n.
Proof.
  intros H. apply in_combine_l in H.
  apply in_map_iff in H as [n [Hn _]]. now exists n.
Qed.

(** Clauses with distinct labels whose placeholders can each belong to
    one label only never share a placeholder. *)
Lemma functional_clauses (owner : string -> string -> Prop)
  (clauses : list (string * list (string * A))) :
  (forall p d1 d2, owner p d1 -> owner p d2 -> d1 = d2) ->
  NoDup (map fst clauses) ->
  (forall d ws, In (d, ws) clauses ->
                functional ws /\ forall p a, In (p, a) ws -> owner p d) ->
  functional (flat_map snd clauses).
Proof.
  intros Howner Hnd Hcl p a b Ha Hb.
  apply in_flat_map in Ha as [[d1 ws1] [Hc1 Ha]].
  apply in_flat_map in Hb as [[d2 ws2] [Hc2 Hb]]. cbn in Ha, Hb.
  destruct (Hcl d1 ws1 Hc1) as [Hf1 Ho1], (Hcl d2 ws2 Hc2) as [_ Ho2].
  assert (d1 = d2) by (apply (Howner p); eauto). subst d2.
  assert (ws1 = ws2).
  { clear -Hnd Hc1 Hc2. induction clauses as [|[d ws] cl IH]; [easy|].
    cbn in Hnd. inversion Hnd as [|? ? Hnotin Hnd']; subst.
    destruct Hc1 as [E1|Hc1], Hc2 as [E2|Hc2].
    - congruence.
    - injection E1 as -> ->. exfalso. apply Hnotin.
      apply in_map_iff. now exists (d1, ws2).
    - injection E2 as -> ->. exfalso. apply Hnotin.
      apply in_map_iff. now exists (d1, ws1).
    - now apply IH. }
  subst ws2. now apply (Hf1 p).
Qed.
End Assignments.

(** *** Sanitised paths and numeric suffixes *)

Lemma ends_plain_tail (c : ascii) (s : string) :
  ends_plain (String c s) = true -> ends_plain s = true.
Proof. destruct s; [reflexivity | exact (fun H => H)]. Qed.

Lemma digits_do_not_end_plain (a b : string) :
  a <> "" -> ends_plain a = true -> all_digits (a ++ b) = false.
Proof.
  unfold all_digits. induction a as [|c a IH]; intros Hne Hplain; [easy|].
  destruct a as [|c' a].
  - cbn in Hplain |- *. apply negb_true_iff in Hplain. now rewrite Hplain.
  - change (ends_plain (String c' a) = true) in Hplain.
    change (is_digit c
            && forallb is_digit (list_ascii_of_string (String c' a ++ b)) = false).
    rewrite (IH ltac:(discriminate) Hplain). apply andb_false_r.
Qed.

(** A string splits in one way only into a part that does not end in a
    digit and a run of digits. *)
Lemma plain_digits_unique (s1 s2 d1 d2 : string) :
  ends_plain s1 = true -> ends_plain s2 = true ->
  all_digits d1 = true -> all_digits d2 = true ->
  s1 ++ d1 = s2 ++ d2 -> s1 = s2 /\ d1 = d2.
Proof.
  revert s2. induction s1 as [|c1 s1 IH]; intros s2 H1 H2 Hd1 Hd2 Heq.
  - destruct s2 as [|c2 s2]; [now split|].
    cbn [append] in Heq. subst d1.
    pose proof (digits_do_not_end_plain (String c2 s2) d2
                  ltac:(discriminate) H2) as Hno.
    cbn [append] in Hno. congruence.
  - destruct s2 as [|c2 s2].
    + cbn [append] in Heq. subst d2.
      pose proof (digits_do_not_end_plain (String c1 s1) d1
                    ltac:(discriminate) H1) as Hno.
      cbn [append] in Hno. congruence.
    + cbn [append] in Heq. injection Heq as -> Heq.
      destruct (IH s2 (ends_plain_tail _ _ H1) (ends_plain_tail _ _ H2) Hd1 Hd2 Heq)
        as [-> ->].
      now split.
Qed.

Lemma owned_unique (c : ascii) (p d1 d2 : string) :
  owned c p d1 -> owned c p d2 -> d1 = d2.
Proof.
  intros [H1 [x1 [Hx1 E1]]] [H2 [x2 [Hx2 E2]]].
  rewrite E1 in E2. injection E2 as E.
  now destruct (plain_digits_unique d1 d2 x1 x2 H1 H2 Hx1 Hx2 E).
Qed.

Lemma is_digit_undot (c : ascii) : is_digit (undot c) = is_digit c.
Proof.
  unfold undot, dot. destruct (Ascii.eqb c ".") eqn:E; [|reflexivity].
  apply Ascii.eqb_eq in E. now subst c.
Qed.

Lemma ends_plain_dotless (s : string) : ends_plain (dotless s) = ends_plain s.
Proof.
  induction s as [|c s IH]; [reflexivity|].
  rewrite dotless_String. destruct s as [|c' s].
  - cbn. now rewrite is_digit_undot.
  - rewrite dotless_String in IH |- *. exact IH.
Qed.

Lemma name_placeholder_inj (d : string) (n m : nat) :
  "#" ++ d ++ dec n = "#" ++ d ++ dec m -> n = m.
Proof.
  intros H. apply append_inj_l in H. apply append_inj_l in H. now apply dec_inj.
Qed.

Lemma in_placeholder_shape (key : string) (n : nat) :
  dotless (":" ++ key ++ dec n) = String ":" (dotless key ++ dec n).
Proof. now rewrite !dotless_app, (dotless_digits _ (dec_digits n)). Qed.

Lemma in_placeholder_inj (key : string) (n m : nat) :
  dotless (":" ++ key ++ dec n) = dotless (":" ++ key ++ dec m) -> n = m.
Proof.
  rewrite !in_placeholder_shape. intros H. injection H as H.
  apply append_inj_l in H. now apply dec_inj.
Qed.

Lemma scalar_placeholder_shape (key : string) :
  dotless (":" ++ key) = String ":" (dotless key ++ "").
Proof. now rewrite dotless_app, append_empty_r. Qed.

Lemma between_placeholder_shape (key suffix : string) :
  all_digits suffix = true ->
  dotless (":" ++ key ++ suffix) = String ":" (dotless key ++ suffix).
Proof. intros H. now rewrite !dotless_app, (dotless_digits _ H). Qed.

(** *** Each clause on its own *)

Lemma name_writes_clause (key : string) :
  ends_plain key = true ->
  functional (name_writes key)
  /\ forall p a, In (p, a) (name_writes key) -> owned "#" p (dotless key).
Proof.
  intros Hplain. unfold name_writes, partNames. split.
  - apply functional_indexed. intros n m. apply name_placeholder_inj.
  - intros p a Hin.
    apply (in_indexed (fun index => "#" ++ dotless key ++ dec index)) in Hin
      as [n ->].
    split; [now rewrite ends_plain_dotless|].
    exists (dec n). split; [apply dec_digits | reflexivity].
Qed.

Lemma functional_single {A} (p : string) (a : A) : functional [(p, a)].
Proof.
  intros q x y [Hx|[]] [Hy|[]]. congruence.
Qed.

Lemma term_value_writes_clause (key : string) (v : value) :
  ends_plain key = true ->
  functional (term_value_writes key v)
  /\ forall p a, In (p, a) (term_value_writes key v) -> owned ":" p (dotless key).
Proof.
  intros Hplain.
  assert (Hscalar :
    functional [(dotless (":" ++ key), v)]
    /\ forall p a, In (p, a) [(dotless (":" ++ key), v)]
                   -> owned ":" p (dotless key)).
  { split; [apply functional_single|].
    intros p a [H|[]]. injection H as <- _.
    split; [now rewrite ends_plain_dotless|].
    exists "". split; [reflexivity | apply scalar_placeholder_shape]. }
  destruct v; try exact Hscalar.
  unfold term_value_writes, inNames. split.
  - apply functional_indexed. intros n m. apply in_placeholder_inj.
  - intros p a Hin.
    apply (in_indexed (fun index => dotless (":" ++ key ++ dec index))) in Hin
      as [n ->].
    split; [now rewrite ends_plain_dotless|].
    exists (dec n). split; [apply dec_digits | apply in_placeholder_shape].
Qed.

Lemma contains_value_writes_clause (key : string) (v : value) :
  ends_plain key = true ->
  functional (contains_value_writes key v)
  /\ forall p a, In (p, a) (contains_value_writes key v)
                 -> owned ":" p (dotless key).
Proof.
  intros Hplain. split; [apply functional_single|].
  intros p a [H|[]]. injection H as <- _.
  split; [now rewrite ends_plain_dotless|].
  exists "". split; [reflexivity | apply scalar_placeholder_shape].
Qed.

Lemma between_value_writes_clause (key : string) (values : value * value) :
  ends_plain key = true ->
  functional (between_value_writes key values)
  /\ forall p a, In (p, a) (between_value_writes key values)
                 -> owned ":" p (dotless key).
Proof.
  intros Hplain.
  assert (O1 : owned ":" (dotless (":" ++ key ++ "1")) (dotless key)).
  { split; [now rewrite ends_plain_dotless|].
    exists "1". split; [reflexivity | now apply between_placeholder_shape]. }
  assert (O2 : owned ":" (dotless (":" ++ key ++ "2")) (dotless key)).
  { split; [now rewrite ends_plain_dotless|].
    exists "2". split; [reflexivity | now apply between_placeholder_shape]. }
  unfold between_value_writes; cbv zeta.
  destruct (negb (truthy (fst values))); [|destruct (negb (truthy (snd values)))].
  - split; [apply functional_single|]. intros p a [H|[]]. now injection H as <- _.
  - split; [apply functional_single|]. intros p a [H|[]]. now injection H as <- _.
  - split.
    + intros p a b [Ha|[Ha|[]]] [Hb|[Hb|[]]];
        injection Ha as Hpa <-; injection Hb as Hpb <-; try reflexivity;
        exfalso; apply (between_placeholders_differ key);
        first [ transitivity p; [exact Hpa | symmetry; exact Hpb]
              | transitivity p; [exact Hpb | symmetry; exact Hpa] ].
    + intros p a [H|[H|[]]]; now injection H as <- _.
Qed.

(** *** What the builder assigns *)

Lemma inPlaceholders_spec (key : string) (values : list value) (index : nat)
  (st : bstate) :
  inPlaceholders key values index st
  = (map (fun i => dotless (":" ++ key ++ dec i)) (seq index (List.length values)),
     {| expression := expression st;
        expressionAttributeNames := expressionAttributeNames st;
        expressionAttributeValues :=
          assign_all (combine (map (fun i => dotless (":" ++ key ++ dec i))
                                   (seq index (List.length values))) values)
                     (expressionAttributeValues st) |}).
Proof.
  revert index st. induction values as [|v values IH]; intros index st.
  - destruct st; reflexivity.
  - cbn [inPlaceholders]. rewrite IH. reflexivity.
Qed.

(** The IN clause of a list-valued attribute: one value placeholder per
    element of the list. *)
Lemma in_clause (key : string) (values : list value) (st : bstate) :
  expression (addInQueryToExpression key values st)
  = expression st ++ keyPlaceholderOf key ++ " IN ("
      ++ join "," (inNames key values) ++ ")"
  /\ List.length (inNames key values) = List.length values.
Proof.
  unfold addInQueryToExpression.
  rewrite buildKeyPlaceholder_spec, inPlaceholders_spec. cbn.
  split; [reflexivity|]. unfold inNames. now rewrite length_map, length_seq.
Qed.

Lemma andIfNonEmpty_maps (st : bstate) :
  expressionAttributeNames (andIfNonEmpty st) = expressionAttributeNames st
  /\ expressionAttributeValues (andIfNonEmpty st) = expressionAttributeValues st.
Proof. unfold andIfNonEmpty. destruct (0 <? _)%nat; split; reflexivity. Qed.

Lemma addSearchTerm_maps (key : string) (v : value) (st : bstate) :
  expressionAttributeNames (addSearchTermToExpression key v st)
  = assign_all (name_writes key) (expressionAttributeNames st)
  /\ expressionAttributeValues (addSearchTermToExpression key v st)
     = assign_all [(dotless (":" ++ key), v)] (expressionAttributeValues st).
Proof.
  unfold addSearchTermToExpression. rewrite buildKeyPlaceholder_spec.
  split; reflexivity.
Qed.

Lemma addInQuery_maps (key : string) (values : list value) (st : bstate) :
  expressionAttributeNames (addInQueryToExpression key values st)
  = assign_all (name_writes key) (expressionAttributeNames st)
  /\ expressionAttributeValues (addInQueryToExpression key values st)
     = assign_all (combine (inNames key values) values)
                  (expressionAttributeValues st).
Proof.
  unfold addInQueryToExpression.
  rewrite buildKeyPlaceholder_spec, inPlaceholders_spec. split; reflexivity.
Qed.

Lemma addContains_maps (key : string) (v : value) (st : bstate) :
  expressionAttributeNames (addContainsQueryToExpression key v st)
  = assign_all (name_writes key) (expressionAttributeNames st)
  /\ expressionAttributeValues (addContainsQueryToExpression key v st)
     = assign_all (contains_value_writes key v) (expressionAttributeValues st).
Proof.
  unfold addContainsQueryToExpression. rewrite buildKeyPlaceholder_spec.
  split; reflexivity.
Qed.

Lemma addBetween_maps (key : string) (values : value * value) (st : bstate) :
  expressionAttributeNames (addBoundsToExpression key values st)
  = assign_all (name_writes key) (expressionAttributeNames st)
  /\ expressionAttributeValues (addBoundsToExpression key values st)
     = assign_all (between_value_writes key values) (expressionAttributeValues st).
Proof.
  unfold addBoundsToExpression, between_value_writes.
  rewrite buildKeyPlaceholder_spec. cbv zeta.
  destruct (negb (truthy (fst values)));
    [|destruct (negb (truthy (snd values)))]; split; reflexivity.
Qed.

Lemma searchTermsLoop_writes (searchTerms : obj value) (st : bstate) :
  forallb hasConstructor (map snd searchTerms) = true ->
  exists st',
    searchTermsLoop searchTerms st = Ok st'
    /\ expressionAttributeNames st'
       = assign_all (flat_map (fun kv => name_writes (fst kv)) searchTerms)
                    (expressionAttributeNames st)
    /\ expressionAttributeValues st'
       = assign_all (flat_map (fun kv => term_value_writes (fst kv) (snd kv))
                              searchTerms)
                    (expressionAttributeValues st).
Proof.
  revert st. induction searchTerms as [|[key v] rest IH]; intros st Hdef.
  - exists st. repeat split.
  - cbn [map snd forallb] in Hdef. apply andb_prop in Hdef as [Hv Hrest].
    destruct (andIfNonEmpty_maps st) as [Hn0 Hv0].
    cbn [flat_map fst snd]. rewrite !assign_all_app, <- Hn0, <- Hv0.
    destruct v; try discriminate Hv; cbn [searchTermsLoop];
      match goal with
      | |- context [searchTermsLoop rest ?s] =>
          destruct (IH s Hrest) as [st' [Hrun [Hn Hvs]]]
      end;
      exists st'; (split; [exact Hrun|]); rewrite Hn, Hvs;
      first [ destruct (addInQuery_maps key elems (andIfNonEmpty st)) as [-> ->]
            | match goal with
              | |- context [addSearchTermToExpression key ?x _] =>
                  destruct (addSearchTerm_maps key x (andIfNonEmpty st)) as [-> ->]
              end ];
      split; reflexivity.
Qed.

Lemma containsLoop_writes (containsQuery : obj value) (st : bstate) :
  expressionAttributeNames (containsLoop containsQuery st)
  = assign_all (flat_map (fun kv => name_writes (fst kv)) containsQuery)
               (expressionAttributeNames st)
  /\ expressionAttributeValues (containsLoop containsQuery st)
     = assign_all (flat_map (fun kv => contains_value_writes (fst kv) (snd kv))
                            containsQuery)
                  (expressionAttributeValues st).
Proof.
  revert st. induction containsQuery as [|[key v] rest IH]; intros st.
  - split; reflexivity.
  - cbn [containsLoop flat_map fst snd]. rewrite !assign_all_app.
    destruct (IH (addContainsQueryToExpression key v (andIfNonEmpty st))) as [-> ->].
    destruct (addContains_maps key v (andIfNonEmpty st)) as [-> ->].
    destruct (andIfNonEmpty_maps st) as [-> ->]. split; reflexivity.
Qed.

Lemma boundsLoop_writes (betweenQuery : obj (value * value)) (st : bstate) :
  expressionAttributeNames (boundsLoop betweenQuery st)
  = assign_all (flat_map (fun kv => name_writes (fst kv)) betweenQuery)
               (expressionAttributeNames st)
  /\ expressionAttributeValues (boundsLoop betweenQuery st)
     = assign_all (flat_map (fun kv => between_value_writes (fst kv) (snd kv))
                            betweenQuery)
                  (expressionAttributeValues st).
Proof.
  revert st. induction betweenQuery as [|[key v] rest IH]; intros st.
  - split; reflexivity.
  - cbn [boundsLoop flat_map fst snd]. rewrite !assign_all_app.
    destruct (IH (addBoundsToExpression key v (andIfNonEmpty st))) as [-> ->].
    destruct (addBetween_maps key v (andIfNonEmpty st)) as [-> ->].
    destruct (andIfNonEmpty_maps st) as [-> ->]. split; reflexivity.
Qed.

(** The two objects [buildFilterExpression] leaves behind are the given
    ones after the generated assignments, in order. *)
Lemma buildFilterExpression_writes (keySchema : list key_element)
  (kvp : obj value) (cq : option (obj value)) (bq : option (obj value))
  (pairs : obj (value * value)) (names0 : obj string) (values0 : obj value) :
  forallb hasConstructor (map snd (remove_keys kvp keySchema)) = true ->
  rangeBounds (orEmpty bq) = Ok pairs ->
  exists filter,
    buildFilterExpression keySchema kvp cq bq names0 values0
    = Ok (filter,
          assign_all (generated_names (remove_keys kvp keySchema)
                                      (orEmpty cq) pairs) names0,
          assign_all (generated_values (remove_keys kvp keySchema)
                                       (orEmpty cq) pairs) values0).
Proof.
  intros Hdef Hpairs. unfold buildFilterExpression, buildFilterState.
  destruct (searchTermsLoop_writes (remove_keys kvp keySchema)
              {| expression := ""; expressionAttributeNames := names0;
                 expressionAttributeValues := values0 |} Hdef)
    as [st1 [Hrun [Hn1 Hv1]]].
  rewrite Hrun. cbn [bind]. rewrite betweenLoop_bounds, Hpairs. cbn [bind].
  destruct (containsLoop_writes (orEmpty cq) st1) as [Hn2 Hv2].
  destruct (boundsLoop_writes pairs (containsLoop (orEmpty cq) st1))
    as [Hn3 Hv3].
  eexists. rewrite Hn3, Hv3, Hn2, Hv2, Hn1, Hv1.
  unfold generated_names, generated_values.
  rewrite !assign_all_app. reflexivity.
Qed.

(** *** Uniqueness *)

Lemma distinctb_NoDup (l : list string) : distinctb l = true -> NoDup l.
Proof.
  induction l as [|x l IH]; intros H; [constructor|].
  cbn in H. apply andb_prop in H as [Hx Hl]. constructor; [|now apply IH].
  intros Hin. apply negb_true_iff in Hx.
  assert (existsb (String.eqb x) l = true); [|congruence].
  apply existsb_exists. exists x. split; [exact Hin | apply String.eqb_refl].
Qed.

Lemma flat_map_labelled {X L B} (label : X -> L) (g : X -> list B) (l : list X) :
  flat_map snd (map (fun x => (label x, g x)) l) = flat_map g l.
Proof. induction l as [|x l IH]; cbn; congruence. Qed.

Lemma flat_map_keys {A B} (g : string -> list B) (o : obj A) :
  flat_map g (obj_keys o) = flat_map (fun kv => g (fst kv)) o.
Proof. unfold obj_keys. induction o as [|kv o IH]; cbn; congruence. Qed.

Lemma generated_names_by_clause (t c : obj value) (b : obj (value * value)) :
  generated_names t c b = flat_map snd (name_clauses t c b).
Proof.
  unfold generated_names, name_clauses, filter_paths.
  rewrite flat_map_labelled, !flat_map_app, !flat_map_keys. reflexivity.
Qed.

Lemma generated_values_by_clause (t c : obj value) (b : obj (value * value)) :
  generated_values t c b = flat_map snd (value_clauses t c b).
Proof.
  unfold generated_values, value_clauses.
  rewrite !flat_map_app.
  rewrite (flat_map_labelled (fun kv => dotless (fst kv))
             (fun kv => term_value_writes (fst kv) (snd kv))).
  rewrite (flat_map_labelled (fun kv => dotless (fst kv))
             (fun kv => contains_value_writes (fst kv) (snd kv))).
  rewrite (flat_map_labelled (fun kv => dotless (fst kv))
             (fun kv => between_value_writes (fst kv) (snd kv))).
  reflexivity.
Qed.

Lemma name_clause_labels (t c : obj value) (b : obj (value * value)) :
  map fst (name_clauses t c b) = map dotless (filter_paths t c b).
Proof. unfold name_clauses. rewrite map_map. reflexivity. Qed.

Lemma value_clause_labels (t c : obj value) (b : obj (value * value)) :
  map fst (value_clauses t c b) = map dotless (filter_paths t c b).
Proof.
  unfold value_clauses, filter_paths, obj_keys.
  rewrite !map_app, !map_map. reflexivity.
Qed.

Lemma in_obj_keys {A} (o : obj A) (k : string) (v : A) :
  In (k, v) o -> In k (obj_keys o).
Proof. intros H. apply in_map_iff. now exists (k, v). Qed.

(** Provided no attribute path ends in a digit and the sanitised paths of
    all clauses are pairwise distinct, no placeholder is generated for two
    different segments or values. *)
Lemma generated_functional (t c : obj value) (b : obj (value * value)) :
  forallb ends_plain (filter_paths t c b) = true ->
  distinctb (map dotless (filter_paths t c b)) = true ->
  functional (generated_names t c b) /\ functional (generated_values t c b).
Proof.
  intros Hplain Hdistinct.
  apply distinctb_NoDup in Hdistinct.
  assert (Hpath : forall key, In key (filter_paths t c b) -> ends_plain key = true).
  { intros key. now apply (proj1 (forallb_forall _ _) Hplain). }
  split.
  - rewrite generated_names_by_clause.
    apply (functional_clauses (owned "#")).
    + apply owned_unique.
    + now rewrite name_clause_labels.
    + intros d ws Hin. unfold name_clauses in Hin.
      apply in_map_iff in Hin as [key [E Hkey]]. injection E as <- <-.
      apply name_writes_clause. now apply Hpath.
  - rewrite generated_values_by_clause.
    apply (functional_clauses (owned ":")).
    + apply owned_unique.
    + now rewrite value_clause_labels.
    + intros d ws Hin. unfold value_clauses in Hin.
      unfold filter_paths in Hpath.
      apply in_app_or in Hin as [Hin|Hin]; [|apply in_app_or in Hin as [Hin|Hin]];
        apply in_map_iff in Hin as [[key v] [E Hkv]]; injection E as <- <-;
        cbn [fst snd]; apply in_obj_keys in Hkv.
      * apply term_value_writes_clause. apply Hpath. apply in_or_app. now left.
      * apply contains_value_writes_clause. apply Hpath.
        apply in_or_app. right. apply in_or_app. now left.
      * apply between_value_writes_clause. apply Hpath.
        apply in_or_app. right. apply in_or_app. now right.
Qed.

(** A sufficient condition for placeholders to stay apart within one
    call of buildFilterExpression: when no attribute path reaching the
    filter ends in a decimal digit and the paths of the residual filter
    set, the contains query and the range query are pairwise distinct once
    their dots are replaced by underscores, no name placeholder is
    generated for two different segments, no value placeholder for two
    different values, and the resulting objects bind every generated
    placeholder to its own segment or value. *)
Lemma placeholders_unique_for_separate_paths
  (keySchema : list key_element) (kvp : obj value) (cq : option (obj value))
  (bq : option (obj value)) (pairs : obj (value * value))
  (names0 : obj string) (values0 : obj value)
  (Hdefined : forallb hasConstructor (map snd (remove_keys kvp keySchema)) = true)
  (Hpairs : rangeBounds (orEmpty bq) = Ok pairs)
  (Hplain : forallb ends_plain
              (filter_paths (remove_keys kvp keySchema) (orEmpty cq) pairs)
            = true)
  (Hdistinct : distinctb
                 (map dotless (filter_paths (remove_keys kvp keySchema)
                                            (orEmpty cq) pairs))
               = true) :
  exists filter names values,
    buildFilterExpression keySchema kvp cq bq names0 values0
    = Ok (filter, names, values)
    /\ functional (generated_names (remove_keys kvp keySchema)
                                   (orEmpty cq) pairs)
    /\ functional (generated_values (remove_keys kvp keySchema)
                                    (orEmpty cq) pairs)
    /\ (forall p segment,
          In (p, segment) (generated_names (remove_keys kvp keySchema)
                                           (orEmpty cq) pairs) ->
          obj_lookup names p = Some segment)
    /\ (forall p v,
          In (p, v) (generated_values (remove_keys kvp keySchema)
                                      (orEmpty cq) pairs) ->
          obj_lookup values p = Some v).
Proof.
  destruct (buildFilterExpression_writes keySchema kvp cq bq pairs names0 values0
              Hdefined Hpairs) as [filter Hrun].
  destruct (generated_functional _ _ _ Hplain Hdistinct) as [Hn Hv].
  do 3 eexists. split; [exact Hrun|].
  split; [exact Hn|]. split; [exact Hv|]. split.
  - intros p segment Hin. now apply lookup_assign_all.
  - intros p v Hin. now apply lookup_assign_all.
Qed.

(** C4. What the code does where the claim fails. With the attribute a in
    both the filter set and the contains query, the equality clause and
    the contains clause share the value placeholder :a, and the value
    object keeps the contains value only. In a query, a contains entry on
    the partition key overwrites the value the key condition refers to.
    Sanitising merges name placeholders too: the first segment of the path
    a.b and the whole attribute a_b both get #a_b0. *)
Theorem placeholders_collide_across_clauses :
  buildFilterExpression [] [("a", VNum 1)] (Some [("a", VStr "x")]) None [] []
  = Ok (Some "#a0 = :a AND contains(#a0, :a)",
        [("#a0", "a")], [(":a", VStr "x")])
  /\ query_plan people [("location", VStr "NY")]
                (Some [("location", VStr "N")]) None
     = Ok (IssueQuery
             {| q_TableName := "people";
                q_IndexName := None;
                q_ExpressionAttributeNames :=
                  [("#location", "location"); ("#location0", "location")];
                q_ExpressionAttributeValues := [(":location", VStr "N")];
                q_KeyConditionExpression := "#location = :location";
                q_FilterExpression := Some "contains(#location0, :location)" |})
  /\ buildFilterExpression [] [("a.b", VNum 1); ("a_b", VNum 2)] None None [] []
     = Ok (Some "#a_b0.#a_b1 = :a_b AND #a_b0 = :a_b",
           [("#a_b0", "a_b"); ("#a_b1", "b")], [(":a_b", VNum 2)]).
Proof. repeat split. Qed.

Example example_filter_expression :
  buildFilterExpression people_schema example_filter (Some example_contains)
    (Some example_range) [("#location", "location")] [(":location", VStr "NY")]
  = Ok (Some ("#address_city0.#address_city1 IN (:address_city0,:address_city1)"
              ++ " AND #lastName0 = :lastName"
              ++ " AND contains(#firstName0, :firstName)"
              ++ " AND #age0 BETWEEN :age1 AND :age2"),
        [("#location", "location"); ("#address_city0", "address");
         ("#address_city1", "city"); ("#lastName0", "lastName");
         ("#firstName0", "firstName"); ("#age0", "age")],
        [(":location", VStr "NY"); (":address_city0", VStr "Paris");
         (":address_city1", VStr "Rome"); (":lastName", VStr "Doe");
         (":firstName", VStr "Jo"); (":age1", VNum 18); (":age2", VNum 65)]).
Proof. reflexivity. Qed.

(* ================================================================== *)
(** * Further properties of the table facade *)

(** ** The constructor *)

Lemma find_key_some (kt : key_type) (schema : list key_element) (k : key_element) :
  find_key kt schema = Some k -> In k schema /\ KeyType k = kt.
Proof.
  induction schema as [|k0 schema IH]; [discriminate|]. cbn.
  destruct (key_type_eqb (KeyType k0) kt) eqn:E.
  - intros H. injection H as <-. split; [now left|].
    destruct (KeyType k0), kt; (reflexivity || discriminate).
  - intros H. destruct (IH H). split; [now right | assumption].
Qed.

Lemma find_key_none (kt : key_type) (schema : list key_element) :
  find_key kt schema = None -> forall k, In k schema -> KeyType k <> kt.
Proof.
  induction schema as [|k0 schema IH]; [easy|]. cbn.
  destruct (key_type_eqb (KeyType k0) kt) eqn:E; [discriminate|].
  intros H k [<-|Hin]; [|now apply IH].
  intros Heq. rewrite Heq in E. destruct kt; discriminate.
Qed.

(** X1. A table object built from a description names keys of that
    description: its partition key is the name of a HASH element of the
    key schema, its sort key the name of a RANGE element, and it has no
    sort key only when the schema has no RANGE element. *)
Theorem constructor_reads_keys_of_schema (d : table_desc) (t : DynamoTable)
  (Hnew : new_DynamoTable (Some d) = Ok t) :
  tableDesc t = d /\ tableName t = TableName d
  /\ (exists k, In k (KeySchema d) /\ KeyType k = HASH
                /\ AttributeName k = partitionKey t)
  /\ match sortKey t with
     | Some sk => exists k, In k (KeySchema d) /\ KeyType k = RANGE
                            /\ AttributeName k = sk
     | None => forall k, In k (KeySchema d) -> KeyType k = HASH
     end.
Proof.
  unfold new_DynamoTable in Hnew.
  destruct (find_key HASH (KeySchema d)) as [pk|] eqn:Hpk; [|discriminate].
  injection Hnew as <-. cbn.
  destruct (find_key_some _ _ _ Hpk) as [Hin Hty].
  repeat split; [now exists pk|].
  destruct (find_key RANGE (KeySchema d)) as [sk|] eqn:Hsk.
  - destruct (find_key_some _ _ _ Hsk) as [Hin' Hty']. now exists sk.
  - intros k Hk. pose proof (find_key_none _ _ Hsk k Hk).
    destruct (KeyType k); [reflexivity | contradiction].
Qed.

Lemma constructor_reads_keys_of_schema_witness :
  new_DynamoTable (Some people_desc) = Ok people
  /\ (tableDesc people = people_desc /\ tableName people = TableName people_desc
      /\ (exists k, In k (KeySchema people_desc) /\ KeyType k = HASH
                    /\ AttributeName k = partitionKey people)
      /\ match sortKey people with
         | Some sk => exists k, In k (KeySchema people_desc) /\ KeyType k = RANGE
                                /\ AttributeName k = sk
         | None => forall k, In k (KeySchema people_desc) -> KeyType k = HASH
         end).
Proof.
  split; [reflexivity|].
  apply (constructor_reads_keys_of_schema people_desc people). reflexivity.
Defined.

(** ** Index selection: declaration order and the fallback to scan *)

Lemma find_exact_index_find (kvp : obj value) (l : list index_desc) :
  find_exact_index kvp l
  = find (fun index => fitsParamsExactly kvp (IndexKeySchema index)) l.
Proof. induction l as [|i l IH]; cbn; [reflexivity | now rewrite IH]. Qed.

Lemma find_partial_index_find (kvp : obj value) (l : list index_desc) :
  forallb hasPartitionKey l = true ->
  find_partial_index kvp l = Ok (find (partitionBound kvp) l).
Proof.
  induction l as [|i l IH]; [reflexivity|]. cbn.
  unfold hasPartitionKey at 1, partitionBound at 1.
  destruct (find_key HASH (IndexKeySchema i)) as [pk|]; [|discriminate].
  cbn. intros Hl.
  destruct (truthy (obj_get kvp (AttributeName pk))); [reflexivity | now apply IH].
Qed.

Lemma find_first {X} (f : X -> bool) (pre post : list X) (x : X) :
  forallb (fun y => negb (f y)) pre = true -> f x = true ->
  find f (pre ++ x :: post) = Some x.
Proof.
  intros Hpre Hx. induction pre as [|y pre IH]; cbn.
  - now rewrite Hx.
  - cbn in Hpre. apply andb_prop in Hpre as [Hy Hpre].
    apply negb_true_iff in Hy. rewrite Hy. now apply IH.
Qed.

Lemma fits_binds_every_key (kvp : obj value) (schema : list key_element)
  (k : key_element) :
  fitsParamsExactly kvp schema = true -> In k schema ->
  truthy (obj_get kvp (AttributeName k)) = true
  /\ isArray (obj_get kvp (AttributeName k)) = false.
Proof.
  induction schema as [|k0 schema IH]; [easy|]. cbn.
  destruct (truthy (obj_get kvp (AttributeName k0))) eqn:Ht; [|discriminate].
  destruct (isArray (obj_get kvp (AttributeName k0))) eqn:Ha; [discriminate|].
  cbn. intros Hfit [<-|Hin]; [now split | now apply IH].
Qed.

Lemma fits_partitionBound (kvp : obj value) (index : index_desc) :
  hasPartitionKey index = true ->
  fitsParamsExactly kvp (IndexKeySchema index) = true ->
  partitionBound kvp index = true.
Proof.
  unfold hasPartitionKey, partitionBound.
  destruct (find_key HASH (IndexKeySchema index)) as [pk|] eqn:Hpk; [|discriminate].
  intros _ Hfit. destruct (find_key_some _ _ _ Hpk) as [Hin _].
  now destruct (fits_binds_every_key kvp _ pk Hfit Hin).
Qed.

(** X2. Among the local secondary indexes, declaration order decides: with
    the partition key bound and no exact primary fit, the first local
    index that fits exactly is selected, whatever comes after it and
    whatever the global indexes are. *)
Theorem first_fitting_local_index_wins (t : DynamoTable) (kvp : obj value)
  (pre post : list index_desc) (index : index_desc)
  (Hpresent : truthy (obj_get kvp (partitionKey t)) = true)
  (Hprimary : fitsParamsExactly kvp (KeySchema (tableDesc t)) = false)
  (Hlocal : LocalSecondaryIndexes (tableDesc t) = Some (pre ++ index :: post)%list)
  (Hpre : forallb (fun i => negb (fitsParamsExactly kvp (IndexKeySchema i))) pre
          = true)
  (Hfit : fitsParamsExactly kvp (IndexKeySchema index) = true) :
  select_index t kvp = Ok (select_index_desc index).
Proof.
  unfold select_index. rewrite Hprimary, Hpresent, Hlocal.
  rewrite find_exact_index_find.
  rewrite (find_first (fun i => fitsParamsExactly kvp (IndexKeySchema i))
             pre post index Hpre Hfit).
  reflexivity.
Qed.

Lemma first_fitting_local_index_wins_witness :
  truthy (obj_get [("location", VStr "NY"); ("firstName", VStr "Jo");
                   ("email", VStr "x@y.com")] (partitionKey indexed)) = true
  /\ fitsParamsExactly [("location", VStr "NY"); ("firstName", VStr "Jo");
                        ("email", VStr "x@y.com")]
                       (KeySchema (tableDesc indexed)) = false
  /\ LocalSecondaryIndexes (tableDesc indexed)
     = Some ([byLastName] ++ byFirstName :: [])%list
  /\ forallb (fun i => negb (fitsParamsExactly
                               [("location", VStr "NY"); ("firstName", VStr "Jo");
                                ("email", VStr "x@y.com")] (IndexKeySchema i)))
             [byLastName] = true
  /\ fitsParamsExactly [("location", VStr "NY"); ("firstName", VStr "Jo");
                        ("email", VStr "x@y.com")]
                       (IndexKeySchema byFirstName) = true
  /\ select_index indexed [("location", VStr "NY"); ("firstName", VStr "Jo");
                           ("email", VStr "x@y.com")]
     = Ok (select_index_desc byFirstName).
Proof.
  repeat (split; [reflexivity|]).
  apply (first_fitting_local_index_wins indexed _ [byLastName] [] byFirstName);
    reflexivity.
Defined.

(** X3. Without a value for the table's partition key, the global secondary
    indexes decide, in declaration order: the first that fits exactly,
    else the first whose partition key is bound, else nothing (a scan). *)
Theorem global_index_selection (t : DynamoTable) (kvp : obj value)
  (gsis : list index_desc)
  (Habsent : truthy (obj_get kvp (partitionKey t)) = false)
  (Hprimary : fitsParamsExactly kvp (KeySchema (tableDesc t)) = false)
  (Hglobal : GlobalSecondaryIndexes (tableDesc t) = Some gsis)
  (Hwf : forallb hasPartitionKey gsis = true) :
  select_index t kvp
  = Ok match find (fun g => fitsParamsExactly kvp (IndexKeySchema g)) gsis with
       | Some g => select_index_desc g
       | None =>
           match find (partitionBound kvp) gsis with
           | Some g => select_index_desc g
           | None => select_nothing
           end
       end.
Proof.
  unfold select_index. rewrite Hprimary, Habsent, Hglobal.
  rewrite find_exact_index_find.
  destruct (find (fun g => fitsParamsExactly kvp (IndexKeySchema g)) gsis);
    [reflexivity|].
  cbn [matchingKeySchema select_nothing].
  rewrite (find_partial_index_find kvp gsis Hwf). cbn [bind].
  destruct (find (partitionBound kvp) gsis); reflexivity.
Qed.

Lemma global_index_selection_witness :
  truthy (obj_get [("email", VStr "x@y.com"); ("lastName", VStr "Doe")]
                  (partitionKey indexed)) = false
  /\ fitsParamsExactly [("email", VStr "x@y.com"); ("lastName", VStr "Doe")]
                       (KeySchema (tableDesc indexed)) = false
  /\ GlobalSecondaryIndexes (tableDesc indexed) = Some [byPhone; byEmail]
  /\ forallb hasPartitionKey [byPhone; byEmail] = true
  /\ select_index indexed [("email", VStr "x@y.com"); ("lastName", VStr "Doe")]
     = Ok (select_index_desc byEmail).
Proof.
  repeat (split; [reflexivity|]).
  apply (global_index_selection indexed
           [("email", VStr "x@y.com"); ("lastName", VStr "Doe")]
           [byPhone; byEmail]); reflexivity.
Defined.

Lemma find_none_existsb {X} (f : X -> bool) (l : list X) :
  find f l = None <-> existsb f l = false.
Proof.
  induction l as [|x l IH]; cbn; [tauto|].
  destruct (f x); cbn; [split; discriminate | exact IH].
Qed.

Lemma existsb_in {X} (f : X -> bool) (l : list X) (x : X) :
  In x l -> f x = true -> existsb f l = true.
Proof. intros Hin Hf. apply existsb_exists. now exists x. Qed.

Lemma select_nothing_iff (t : DynamoTable) (kvp : obj value) :
  forallb hasPartitionKey (indexes (GlobalSecondaryIndexes (tableDesc t))) = true ->
  ((exists sel, select_index t kvp = Ok sel /\ matchingKeySchema sel = None)
   <-> fitsParamsExactly kvp (KeySchema (tableDesc t)) = false
       /\ truthy (obj_get kvp (partitionKey t)) = false
       /\ existsb (partitionBound kvp)
                  (indexes (GlobalSecondaryIndexes (tableDesc t))) = false).
Proof.
  intros Hwf. unfold select_index.
  destruct (fitsParamsExactly kvp (KeySchema (tableDesc t))) eqn:Hprimary.
  { split; [intros [sel [E Hnone]] | intros [H _]; discriminate].
    injection E as <-. discriminate. }
  destruct (truthy (obj_get kvp (partitionKey t))) eqn:Hpk.
  { split; [|intros [_ [H _]]; discriminate].
    intros [sel [E Hnone]]. exfalso.
    destruct (LocalSecondaryIndexes (tableDesc t)) as [lsis|];
      [destruct (find_exact_index kvp lsis)|];
      try (injection E as <-; discriminate);
      (destruct (GlobalSecondaryIndexes (tableDesc t)) as [gsis|];
       [destruct (find_exact_index kvp gsis)|]);
      injection E as <-; discriminate. }
  destruct (GlobalSecondaryIndexes (tableDesc t)) as [gsis|]; cbn [indexes] in *.
  - rewrite find_exact_index_find.
    destruct (find (fun g => fitsParamsExactly kvp (IndexKeySchema g)) gsis)
      as [g|] eqn:Hexact.
    + apply find_some in Hexact as [Hin Hfit].
      assert (Hb : existsb (partitionBound kvp) gsis = true).
      { apply (existsb_in _ _ g Hin). apply fits_partitionBound; [|exact Hfit].
        now apply (proj1 (forallb_forall _ _) Hwf). }
      split; [intros [sel [E Hnone]] | intros [_ [_ H]]; congruence].
      injection E as <-. discriminate.
    + cbn [matchingKeySchema select_nothing].
      rewrite (find_partial_index_find kvp gsis Hwf). cbn [bind].
      destruct (find (partitionBound kvp) gsis) as [g|] eqn:Hpartial.
      * apply find_some in Hpartial as [Hin Hb].
        rewrite (existsb_in _ _ g Hin Hb).
        split; [intros [sel [E Hnone]] | intros [_ [_ H]]; discriminate].
        injection E as <-. discriminate.
      * apply find_none_existsb in Hpartial. rewrite Hpartial.
        split; [now repeat split|]. intros _. now exists select_nothing.
  - split; [now repeat split|]. intros _. now exists select_nothing.
Qed.

(** X4. A query falls back to a scan exactly when the primary schema is not
    an exact fit, the table's partition key is not bound to a truthy value
    and no global secondary index has its partition key bound to one. *)
Theorem query_scans_iff_no_partition_bound (t : DynamoTable) (kvp : obj value)
  (cq : option (obj value)) (bq : option (obj value))
  (Hwf : forallb hasPartitionKey (indexes (GlobalSecondaryIndexes (tableDesc t)))
         = true) :
  query_plan t kvp cq bq = Ok FallBackToScan
  <-> fitsParamsExactly kvp (KeySchema (tableDesc t)) = false
      /\ truthy (obj_get kvp (partitionKey t)) = false
      /\ existsb (partitionBound kvp)
                 (indexes (GlobalSecondaryIndexes (tableDesc t))) = false.
Proof.
  rewrite <- (select_nothing_iff t kvp Hwf). unfold query_plan.
  destruct (select_index t kvp) as [sel|e]; cbn [bind].
  - destruct (matchingKeySchema sel) as [schema|] eqn:Hm.
    + split.
      * destruct (queryParams t (sel_IndexName sel) schema kvp cq bq);
          discriminate.
      * intros [sel' [E Hnone]]. injection E as <-. congruence.
    + split; [intros _; now exists sel | reflexivity].
  - split; [discriminate | intros [sel [E _]]; discriminate].
Qed.

Lemma query_scans_iff_no_partition_bound_witness :
  forallb hasPartitionKey (indexes (GlobalSecondaryIndexes (tableDesc people)))
  = true
  /\ (query_plan people [("lastName", VStr "Doe")] None None = Ok FallBackToScan
      <-> fitsParamsExactly [("lastName", VStr "Doe")]
                            (KeySchema (tableDesc people)) = false
          /\ truthy (obj_get [("lastName", VStr "Doe")] (partitionKey people))
             = false
          /\ existsb (partitionBound [("lastName", VStr "Doe")])
                     (indexes (GlobalSecondaryIndexes (tableDesc people)))
             = false).
Proof.
  split; [reflexivity|].
  apply (query_scans_iff_no_partition_bound people [("lastName", VStr "Doe")]
           None None). reflexivity.
Defined.

(** ** Index selection and the key condition together *)





(** ** The key condition for given keys *)

(** X6. With a truthy partition value and no truthy sort value (or no sort
    key in the schema), the key condition is exactly the partition
    equality, with one name and one value placeholder. *)
Theorem keyCondition_partition_only (schema : list key_element)
  (pk : key_element) (kvp : obj value)
  (Hpk : find_key HASH schema = Some pk)
  (Hvalue : truthy (obj_get kvp (AttributeName pk)) = true)
  (Hsort : match find_key RANGE schema with
           | Some sk => truthy (obj_get kvp (AttributeName sk))
           | None => false
           end = false) :
  buildKeyConditionExpression schema kvp [] []
  = Ok {| expression := "#" ++ AttributeName pk ++ " = :" ++ AttributeName pk;
          expressionAttributeNames := [("#" ++ AttributeName pk, AttributeName pk)];
          expressionAttributeValues :=
            [(":" ++ AttributeName pk, obj_get kvp (AttributeName pk))] |}.
Proof.
  unfold buildKeyConditionExpression. rewrite Hpk, Hvalue. cbn [negb].
  destruct (find_key RANGE schema) as [sk|]; [rewrite Hsort|]; reflexivity.
Qed.

Lemma keyCondition_partition_only_witness :
  find_key HASH people_schema = Some {| AttributeName := "location"; KeyType := HASH |}
  /\ truthy (obj_get [("location", VStr "NY"); ("lastName", VStr "Doe")] "location")
     = true
  /\ match find_key RANGE people_schema with
     | Some sk => truthy (obj_get [("location", VStr "NY"); ("lastName", VStr "Doe")]
                                  (AttributeName sk))
     | None => false
     end = false
  /\ buildKeyConditionExpression people_schema
       [("location", VStr "NY"); ("lastName", VStr "Doe")] [] []
     = Ok {| expression := "#location = :location";
             expressionAttributeNames := [("#location", "location")];
             expressionAttributeValues := [(":location", VStr "NY")] |}.
Proof.
  repeat (split; [reflexivity|]).
  apply (keyCondition_partition_only people_schema
           {| AttributeName := "location"; KeyType := HASH |}
           [("location", VStr "NY"); ("lastName", VStr "Doe")]); reflexivity.
Defined.

(** X7. With truthy values for both keys of a schema, the key condition is
    the two equalities joined by AND, each key under its own placeholders. *)
Theorem keyCondition_with_sort_key (schema : list key_element)
  (pk sk : key_element) (kvp : obj value)
  (Hpk : find_key HASH schema = Some pk)
  (Hsk : find_key RANGE schema = Some sk)
  (Hdiff : (AttributeName pk =? AttributeName sk) = false)
  (Hvalue : truthy (obj_get kvp (AttributeName pk)) = true)
  (Hsort : truthy (obj_get kvp (AttributeName sk)) = true) :
  buildKeyConditionExpression schema kvp [] []
  = Ok {| expression := ("#" ++ AttributeName pk ++ " = :" ++ AttributeName pk)
                        ++ " AND "
                        ++ "#" ++ AttributeName sk ++ " = :" ++ AttributeName sk;
          expressionAttributeNames :=
            [("#" ++ AttributeName pk, AttributeName pk);
             ("#" ++ AttributeName sk, AttributeName sk)];
          expressionAttributeValues :=
            [(":" ++ AttributeName pk, obj_get kvp (AttributeName pk));
             (":" ++ AttributeName sk, obj_get kvp (AttributeName sk))] |}.
Proof.
  unfold buildKeyConditionExpression. rewrite Hpk, Hvalue, Hsk, Hsort. cbn [negb].
  unfold addKeyToExpression, set_name, set_value, emit. cbn. rewrite Hdiff.
  f_equal. f_equal. f_equal. now rewrite !append_assoc.
Qed.

Lemma keyCondition_with_sort_key_witness :
  find_key HASH people_schema = Some {| AttributeName := "location"; KeyType := HASH |}
  /\ find_key RANGE people_schema = Some {| AttributeName := "id"; KeyType := RANGE |}
  /\ ("location" =? "id") = false
  /\ truthy (obj_get [("location", VStr "NY"); ("id", VStr "7")] "location") = true
  /\ truthy (obj_get [("location", VStr "NY"); ("id", VStr "7")] "id") = true
  /\ buildKeyConditionExpression people_schema
       [("location", VStr "NY"); ("id", VStr "7")] [] []
     = Ok {| expression := "#location = :location AND #id = :id";
             expressionAttributeNames := [("#location", "location"); ("#id", "id")];
             expressionAttributeValues :=
               [(":location", VStr "NY"); (":id", VStr "7")] |}.
Proof.
  repeat (split; [reflexivity|]).
  apply (keyCondition_with_sort_key people_schema
           {| AttributeName := "location"; KeyType := HASH |}
           {| AttributeName := "id"; KeyType := RANGE |}
           [("location", VStr "NY"); ("id", VStr "7")]); reflexivity.
Defined.

(** ** The filter expression *)

Lemma obj_delete_filter {A} (o : obj A) (k : string) :
  obj_delete o k = filter (fun kv => negb (fst kv =? k)) o.
Proof.
  induction o as [|[k' v] o IH]; [reflexivity|]. cbn.
  destruct (k' =? k); cbn; now rewrite IH.
Qed.

Lemma filter_filter {X} (f g : X -> bool) (l : list X) :
  filter f (filter g l) = filter (fun x => g x && f x) l.
Proof.
  induction l as [|x l IH]; [reflexivity|]. cbn.
  destruct (g x); cbn; [destruct (f x)|]; now rewrite IH.
Qed.

Lemma remove_keys_as_filter (kvp : obj value) (keySchema : list key_element) :
  remove_keys kvp keySchema
  = filter (fun kv => negb (existsb (String.eqb (fst kv)) (keyNames keySchema))) kvp.
Proof.
  revert kvp. induction keySchema as [|key rest IH]; intros kvp.
  - cbn. induction kvp as [|kv kvp IHk]; [reflexivity | cbn; now rewrite <- IHk].
  - cbn [remove_keys]. rewrite IH, obj_delete_filter, filter_filter.
    apply filter_ext. intros [k v]. cbn. now rewrite negb_orb.
Qed.

(** X8. The attributes that reach the filter are those of the filter set
    that are not attributes of the key schema, in their original order;
    in particular no key attribute is ever rendered in a filter
    expression. *)
Theorem residual_is_filter_set_without_keys (kvp : obj value)
  (keySchema : list key_element) :
  remove_keys kvp keySchema
  = filter (fun kv => negb (existsb (String.eqb (fst kv)) (keyNames keySchema))) kvp
  /\ forall key, In key keySchema ->
       obj_lookup (remove_keys kvp keySchema) (AttributeName key) = None.
Proof.
  split; [apply remove_keys_as_filter|].
  intros key Hkey. rewrite remove_keys_as_filter.
  induction kvp as [|[k v] kvp IH]; [reflexivity|]. cbn.
  destruct (existsb (String.eqb k) (keyNames keySchema)) eqn:E; cbn; [exact IH|].
  destruct (k =? AttributeName key) eqn:Ek; [|exact IH].
  apply String.eqb_eq in Ek. subst k.
  assert (existsb (String.eqb (AttributeName key)) (keyNames keySchema) = true);
    [|congruence].
  apply existsb_exists. exists (AttributeName key).
  split; [now apply in_map | apply String.eqb_refl].
Qed.

Lemma searchTermsLoop_throws (searchTerms : obj value) (st : bstate) :
  forallb hasConstructor (map snd searchTerms) = false ->
  searchTermsLoop searchTerms st = Throw TypeError.
Proof.
  revert st. induction searchTerms as [|[key v] rest IH]; intros st H;
    [discriminate|].
  cbn [map snd forallb] in H. cbn [searchTermsLoop].
  destruct v; try reflexivity; cbn in H; now apply IH.
Qed.

(** X9. buildFilterExpression succeeds when every value that reaches the
    filter and every entry of the range query is other than undefined and
    null, and throws a TypeError otherwise; it has no other failure. *)
Theorem filter_fails_only_on_undefined_value (keySchema : list key_element)
  (kvp : obj value) (cq : option (obj value)) (bq : option (obj value))
  (names : obj string) (values : obj value) :
  if forallb hasConstructor (map snd (remove_keys kvp keySchema))
     && forallb hasConstructor (map snd (orEmpty bq))
  then exists built, buildFilterExpression keySchema kvp cq bq names values
                     = Ok built
  else buildFilterExpression keySchema kvp cq bq names values = Throw TypeError.
Proof.
  unfold buildFilterExpression, buildFilterState.
  destruct (forallb hasConstructor (map snd (remove_keys kvp keySchema))) eqn:H.
  - destruct (searchTermsLoop_writes (remove_keys kvp keySchema)
                {| expression := ""; expressionAttributeNames := names;
                   expressionAttributeValues := values |} H)
      as [st1 [Hrun _]].
    rewrite Hrun. cbn [bind andb]. rewrite betweenLoop_bounds.
    destruct (forallb hasConstructor (map snd (orEmpty bq))) eqn:Hb.
    + destruct (rangeBounds_succeeds _ Hb) as [pairs ->]. cbn [bind].
      eexists. reflexivity.
    + now rewrite (rangeBounds_throws _ Hb).
  - cbn [andb]. now rewrite searchTermsLoop_throws.
Qed.

(** *** The expression is the clauses joined by AND *)

Lemma join_and_snoc (done : list string) (c : string) :
  join " AND " (done ++ [c])
  = match done with [] => c | _ => join " AND " done ++ " AND " ++ c end.
Proof.
  unfold join. induction done as [|x done IH]; [reflexivity|].
  change ((x :: done) ++ [c])%list with (x :: (done ++ [c]))%list.
  destruct done as [|y done].
  - reflexivity.
  - change (String.concat " AND " (x :: (y :: done) ++ [c])%list)
      with (x ++ " AND " ++ String.concat " AND " ((y :: done) ++ [c])%list).
    rewrite IH.
    change (String.concat " AND " (x :: y :: done))
      with (x ++ " AND " ++ String.concat " AND " (y :: done)).
    now rewrite !append_assoc.
Qed.

Lemma join_and_length (done : list string) :
  Forall (fun c => c <> "") done ->
  (0 <? String.length (join " AND " done))%nat
  = match done with [] => false | _ => true end.
Proof.
  intros Hne. destruct done as [|x done]; [reflexivity|].
  inversion Hne as [|? ? Hx _]; subst.
  assert (L : (0 < String.length (join " AND " (x :: done)))%nat).
  { unfold join. destruct done; cbn [String.concat];
      [|rewrite length_append]; destruct x; (contradiction || cbn; lia). }
  now apply Nat.ltb_lt.
Qed.

Lemma clause_step (st : bstate) (done : list string) (c : string) :
  expression st = join " AND " done -> Forall (fun c => c <> "") done ->
  expression (andIfNonEmpty st) ++ c = join " AND " (done ++ [c]).
Proof.
  intros He Hne. unfold andIfNonEmpty.
  rewrite He, (join_and_length done Hne), join_and_snoc.
  destruct done; cbn [emit expression].
  - now rewrite He.
  - now rewrite He, append_assoc.
Qed.

Lemma middle_not_empty (a b : string) (c : ascii) : a ++ String c b <> "".
Proof. destruct a; discriminate. Qed.

Lemma term_clause_not_empty (key : string) (v : value) : term_clause key v <> "".
Proof. destruct v; apply middle_not_empty. Qed.

Lemma contains_clause_not_empty (key : string) : contains_clause key <> "".
Proof. discriminate. Qed.

Lemma range_clause_not_empty (key : string) (values : value * value) :
  range_clause key values <> "".
Proof.
  unfold range_clause. cbv zeta.
  destruct (negb (truthy (fst values))); [|destruct (negb (truthy (snd values)))];
    apply middle_not_empty.
Qed.

Lemma addSearchTerm_expression (key : string) (v : value) (st : bstate) :
  isArray v = false ->
  expression (addSearchTermToExpression key v st)
  = expression st ++ term_clause key v.
Proof.
  intros Hv. unfold addSearchTermToExpression.
  rewrite buildKeyPlaceholder_spec. destruct v; (discriminate || reflexivity).
Qed.

Lemma addContains_expression (key : string) (v : value) (st : bstate) :
  expression (addContainsQueryToExpression key v st)
  = expression st ++ contains_clause key.
Proof.
  unfold addContainsQueryToExpression. now rewrite buildKeyPlaceholder_spec.
Qed.

Lemma addBetween_expression (key : string) (values : value * value) (st : bstate) :
  expression (addBoundsToExpression key values st)
  = expression st ++ range_clause key values.
Proof.
  unfold addBoundsToExpression, range_clause.
  rewrite buildKeyPlaceholder_spec. cbv zeta.
  destruct (negb (truthy (fst values))); [|destruct (negb (truthy (snd values)))];
    reflexivity.
Qed.

Lemma searchTermsLoop_expression (searchTerms : obj value) (st : bstate)
  (done : list string) :
  forallb hasConstructor (map snd searchTerms) = true ->
  expression st = join " AND " done -> Forall (fun c => c <> "") done ->
  exists st',
    searchTermsLoop searchTerms st = Ok st'
    /\ expression st'
       = join " AND "
           (done ++ map (fun kv => term_clause (fst kv) (snd kv)) searchTerms).
Proof.
  revert st done. induction searchTerms as [|[key v] rest IH];
    intros st done Hdef He Hne.
  - exists st. split; [reflexivity|]. now rewrite app_nil_r.
  - cbn [map snd forallb] in Hdef. apply andb_prop in Hdef as [Hv Hrest].
    assert (Hne' : Forall (fun c => c <> "") (done ++ [term_clause key v])).
    { apply Forall_app. split; [exact Hne|].
      constructor; [apply term_clause_not_empty | constructor]. }
    pose proof (clause_step st done (term_clause key v) He Hne) as Hstep.
    cbn [map fst snd].
    replace (done ++ term_clause key v
                  :: map (fun kv => term_clause (fst kv) (snd kv)) rest)%list
      with ((done ++ [term_clause key v])
              ++ map (fun kv => term_clause (fst kv) (snd kv)) rest)%list
      by now rewrite <- app_assoc.
    destruct v; try discriminate Hv; cbn [searchTermsLoop];
      apply (fun H => IH _ _ Hrest H Hne');
      first [ rewrite addSearchTerm_expression by reflexivity; exact Hstep
            | rewrite (proj1 (in_clause key elems (andIfNonEmpty st)));
              exact Hstep ].
Qed.

Lemma containsLoop_expression (containsQuery : obj value) (st : bstate)
  (done : list string) :
  expression st = join " AND " done -> Forall (fun c => c <> "") done ->
  expression (containsLoop containsQuery st)
  = join " AND " (done ++ map (fun kv => contains_clause (fst kv)) containsQuery)
  /\ Forall (fun c => c <> "")
            (done ++ map (fun kv => contains_clause (fst kv)) containsQuery).
Proof.
  revert st done. induction containsQuery as [|[key v] rest IH];
    intros st done He Hne.
  - cbn. now rewrite app_nil_r.
  - cbn [containsLoop map fst].
    replace (done ++ contains_clause key
                  :: map (fun kv => contains_clause (fst kv)) rest)%list
      with ((done ++ [contains_clause key])
              ++ map (fun kv => contains_clause (fst kv)) rest)%list
      by now rewrite <- app_assoc.
    apply IH.
    + rewrite addContains_expression. now apply clause_step.
    + apply Forall_app. split; [exact Hne|].
      constructor; [apply contains_clause_not_empty | constructor].
Qed.

Lemma boundsLoop_expression (betweenQuery : obj (value * value)) (st : bstate)
  (done : list string) :
  expression st = join " AND " done -> Forall (fun c => c <> "") done ->
  expression (boundsLoop betweenQuery st)
  = join " AND "
      (done ++ map (fun kv => range_clause (fst kv) (snd kv)) betweenQuery)
  /\ Forall (fun c => c <> "")
            (done ++ map (fun kv => range_clause (fst kv) (snd kv)) betweenQuery).
Proof.
  revert st done. induction betweenQuery as [|[key v] rest IH];
    intros st done He Hne.
  - cbn. now rewrite app_nil_r.
  - cbn [boundsLoop map fst snd].
    replace (done ++ range_clause key v
                  :: map (fun kv => range_clause (fst kv) (snd kv)) rest)%list
      with ((done ++ [range_clause key v])
              ++ map (fun kv => range_clause (fst kv) (snd kv)) rest)%list
      by now rewrite <- app_assoc.
    apply IH.
    + rewrite addBetween_expression. now apply clause_step.
    + apply Forall_app. split; [exact Hne|].
      constructor; [apply range_clause_not_empty | constructor].
Qed.

(** X10. The filter expression is made of one clause per residual filter
    entry, then one per contains entry, then one per range entry (read as
    its elements 0 and 1), in enumeration order, joined by AND; it is
    absent exactly when there is no clause at all. *)
Theorem filter_expression_joins_clauses (keySchema : list key_element)
  (kvp : obj value) (cq : option (obj value)) (bq : option (obj value))
  (pairs : obj (value * value)) (names0 : obj string) (values0 : obj value)
  (Hdefined : forallb hasConstructor (map snd (remove_keys kvp keySchema)) = true)
  (Hbounds : rangeBounds (orEmpty bq) = Ok pairs) :
  exists names values,
    buildFilterExpression keySchema kvp cq bq names0 values0
    = Ok (match filter_clauses (remove_keys kvp keySchema) (orEmpty cq) pairs
          with
          | [] => None
          | clauses => Some (join " AND " clauses)
          end, names, values).
Proof.
  unfold buildFilterExpression, buildFilterState, filter_clauses.
  set (terms := remove_keys kvp keySchema) in *.
  destruct (searchTermsLoop_expression terms
              {| expression := ""; expressionAttributeNames := names0;
                 expressionAttributeValues := values0 |} [] Hdefined
              eq_refl (Forall_nil _)) as [st1 [Hrun He1]].
  rewrite Hrun. cbn [bind]. rewrite betweenLoop_bounds, Hbounds. cbn [bind].
  rewrite app_nil_l in He1.
  assert (Hne1 : Forall (fun c => c <> "")
                   (map (fun kv => term_clause (fst kv) (snd kv)) terms)).
  { apply Forall_forall. intros c Hc. apply in_map_iff in Hc as [kv [<- _]].
    apply term_clause_not_empty. }
  destruct (containsLoop_expression (orEmpty cq) st1 _ He1 Hne1) as [He2 Hne2].
  destruct (boundsLoop_expression pairs _ _ He2 Hne2) as [He3 Hne3].
  rewrite <- app_assoc in He3, Hne3.
  do 2 eexists. unfold filterResult.
  rewrite He3, (join_and_length _ Hne3).
  destruct (map (fun kv => term_clause (fst kv) (snd kv)) terms
            ++ map (fun kv => contains_clause (fst kv)) (orEmpty cq)
            ++ map (fun kv => range_clause (fst kv) (snd kv)) pairs)%list;
    reflexivity.
Qed.

Lemma filter_expression_joins_clauses_witness :
  forallb hasConstructor (map snd (remove_keys example_filter people_schema)) = true
  /\ rangeBounds (orEmpty (Some example_range)) = Ok example_bounds
  /\ exists names values,
      buildFilterExpression people_schema example_filter (Some example_contains)
        (Some example_range) [] []
      = Ok (match filter_clauses (remove_keys example_filter people_schema)
                    (orEmpty (Some example_contains)) example_bounds
            with
            | [] => None
            | clauses => Some (join " AND " clauses)
            end, names, values).
Proof.
  split; [reflexivity | split; [reflexivity|]].
  apply (filter_expression_joins_clauses people_schema example_filter
           (Some example_contains) (Some example_range) example_bounds [] []);
    reflexivity.
Defined.

Example example_filter_clauses :
  filter_clauses (remove_keys example_filter people_schema)
                 example_contains example_bounds
  = [ "#address_city0.#address_city1 IN (:address_city0,:address_city1)";
      "#lastName0 = :lastName";
      "contains(#firstName0, :firstName)";
      "#age0 BETWEEN :age1 AND :age2" ].
Proof. reflexivity. Qed.

(** *** IN clauses *)

Lemma in_combine_indexed {A} (f : nat -> string) (l : list A) (start i : nat)
  (a : A) :
  nth_error l i = Some a ->
  In (f (start + i), a) (combine (map f (seq start (List.length l))) l)
  /\ nth_error (map f (seq start (List.length l))) i = Some (f (start + i)).
Proof.
  revert start i. induction l as [|x l IH]; intros start i Hn.
  - destruct i; discriminate.
  - destruct i as [|i]; cbn in Hn |- *.
    + injection Hn as ->. rewrite Nat.add_0_r. split; [now left | reflexivity].
    + destruct (IH (S start) i Hn) as [Hin Hnth].
      replace (start + S i) with (S start + i) by lia.
      split; [now right | exact Hnth].
Qed.

(** X11. An attribute bound to a list is rendered as an IN clause that lists
    one value placeholder per element, the i-th placeholder being bound
    to the i-th element. *)
Theorem in_query_binds_each_element (key : string) (values : list value)
  (st : bstate) :
  expression (addInQueryToExpression key values st)
  = expression st ++ keyPlaceholderOf key ++ " IN ("
      ++ join "," (inNames key values) ++ ")"
  /\ List.length (inNames key values) = List.length values
  /\ forall i v, nth_error values i = Some v ->
       nth_error (inNames key values) i = Some (dotless (":" ++ key ++ dec i))
       /\ obj_lookup (expressionAttributeValues
                        (addInQueryToExpression key values st))
                     (dotless (":" ++ key ++ dec i)) = Some v.
Proof.
  destruct (in_clause key values st) as [He Hl].
  split; [exact He | split; [exact Hl|]].
  intros i v Hn.
  destruct (in_combine_indexed (fun index => dotless (":" ++ key ++ dec index))
              values 0 i v Hn) as [Hin Hnth].
  split; [exact Hnth|].
  rewrite (proj2 (addInQuery_maps key values st)).
  apply lookup_assign_all; [|exact Hin].
  apply functional_indexed. intros n m. apply in_placeholder_inj.
Qed.

(** ** scan and query: the request and the caller's object *)

Lemma renameSortKey_unchanged (t : DynamoTable) (kvp : obj value) :
  truthyName (sortKey t) && isArray (obj_get kvp (propertyKey (sortKey t))) = false ->
  renameSortKey t kvp = kvp.
Proof.
  unfold renameSortKey. intros H.
  destruct (truthyName (sortKey t)); [|reflexivity].
  cbn in H. rewrite H. now rewrite andb_false_r.
Qed.

(** X12. A scan called without a filter set, or with an empty one, sends no
    filter expression and no placeholder objects, whatever contains query
    and range query it is given. *)
Theorem scan_without_filter_set_ignores_other_queries (t : DynamoTable)
  (cq : option (obj value)) (bq : option (obj value)) :
  scan_request t None cq bq
  = Ok {| s_TableName := tableName t;
          s_ExpressionAttributeNames := None;
          s_ExpressionAttributeValues := None;
          s_FilterExpression := None |}
  /\ scan_request t (Some []) cq bq = scan_request t None cq bq.
Proof.
  unfold scan_request. cbn [orEmpty].
  rewrite renameSortKey_unchanged by apply andb_false_r.
  split; reflexivity.
Qed.

(** X13. Unless the table has a sort key that the filter set binds to a list,
    neither scan nor query changes the object the caller passed. *)
Theorem caller_filter_set_untouched (t : DynamoTable)
  (mapItem : item -> result item) (store : list response) (kvp : obj value)
  (cq : option (obj value)) (bq : option (obj value))
  (Hnolist : truthyName (sortKey t)
             && isArray (obj_get kvp (propertyKey (sortKey t))) = false) :
  snd (scan t mapItem store (Some kvp) cq bq) = Some kvp
  /\ snd (query t mapItem store (Some kvp) cq bq) = Some kvp.
Proof.
  pose proof (renameSortKey_unchanged t kvp Hnolist) as Hsame.
  split.
  - unfold scan, scan_on. cbn [orEmpty snd]. now rewrite Hsame.
  - unfold query. cbn [orEmpty].
    destruct (query_plan t kvp cq bq) as [[params|]|e]; try reflexivity.
    unfold scan_on. cbn [snd]. now rewrite Hsame.
Qed.

Lemma caller_filter_set_untouched_witness :
  truthyName (sortKey people)
  && isArray (obj_get [("id", VStr "7"); ("lastName", VStr "Doe")]
                      (propertyKey (sortKey people))) = false
  /\ snd (scan people keepItem []
            (Some [("id", VStr "7"); ("lastName", VStr "Doe")]) None None)
     = Some [("id", VStr "7"); ("lastName", VStr "Doe")]
  /\ snd (query people keepItem []
            (Some [("id", VStr "7"); ("lastName", VStr "Doe")]) None None)
     = Some [("id", VStr "7"); ("lastName", VStr "Doe")].
Proof.
  split; [reflexivity|].
  apply (caller_filter_set_untouched people keepItem []
           [("id", VStr "7"); ("lastName", VStr "Doe")] None None).
  reflexivity.
Defined.

(** ** Page aggregation, in general *)

Lemma announcesMore_continues (pages : list response) :
  forallb announcesMore pages = true -> Forall continues pages.
Proof.
  induction pages as [|r pages IH]; [constructor|]. cbn.
  intros H. apply andb_prop in H as [Hr Hp]. constructor; [|now apply IH].
  destruct r as [items [key|]|]; try discriminate. now exists items, key.
Qed.

Lemma getPage_done (store : list response) (items : list item) :
  getPage store items None = Fulfilled items.
Proof. destruct store; reflexivity. Qed.

Lemma getPage_pagesScript (pages : list (list item * item)) (lastPage : list item)
  (rest : list response) (items : list item) (key : item) :
  getPage (pagesScript pages lastPage ++ rest) items (Some key)
  = Fulfilled (items ++ concat (map fst pages) ++ lastPage)%list.
Proof.
  unfold pagesScript. revert items key.
  induction pages as [|p pages IH]; intros items key.
  - cbn. apply getPage_done.
  - cbn. rewrite IH. now rewrite <- !app_assoc.
Qed.

(** X14. When every call succeeds, scan and query fetch pages until one comes
    without a LastEvaluatedKey and return the items of all pages, in page
    order, each passed through mapItemResult; responses the store would
    give after that are never asked for. If mapItemResult throws on an
    item, scan rejects with that error and query never settles. *)
Theorem pages_are_aggregated_in_order (mapItem : item -> result item)
  (pages : list (list item * item)) (lastPage : list item)
  (rest : list response) :
  scan_pages mapItem (pagesScript pages lastPage ++ rest)
  = match map_result mapItem (concat (map fst pages) ++ lastPage) with
    | Ok mapped => Fulfilled mapped
    | Throw e => Rejected e
    end
  /\ query_pages mapItem (pagesScript pages lastPage ++ rest)
     = match map_result mapItem (concat (map fst pages) ++ lastPage) with
       | Ok mapped => Fulfilled mapped
       | Throw _ => Pending
       end.
Proof.
  destruct pages as [|[items key] pages].
  - cbn. rewrite getPage_done. split; reflexivity.
  - change (pagesScript ((items, key) :: pages) lastPage ++ rest)%list
      with (Page items (Some key) :: (pagesScript pages lastPage ++ rest))%list.
    cbn [scan_pages query_pages]. rewrite getPage_pagesScript. cbn [map fst concat].
    rewrite <- app_assoc. split; reflexivity.
Qed.

(** X15. Once a store call fails, no items are returned: query and scan never
    fulfil, whichever call it is that fails. *)
Theorem failed_call_never_yields_items (t : DynamoTable)
  (mapItem : item -> result item) (pages rest : list response) (err : js_error)
  (arg : option (obj value)) (cq : option (obj value))
  (bq : option (obj value)) (items : list item)
  (Hpages : forallb announcesMore pages = true) :
  fst (query t mapItem (pages ++ Failure err :: rest) arg cq bq) <> Fulfilled items
  /\ fst (scan t mapItem (pages ++ Failure err :: rest) arg cq bq)
     <> Ok (Fulfilled items).
Proof.
  apply announcesMore_continues in Hpages.
  assert (Hscan : forall kvp,
            fst (scan_on t mapItem (pages ++ Failure err :: rest) kvp cq bq)
            <> Ok (Fulfilled items)).
  { intros kvp. unfold scan_on. cbn [fst].
    destruct (scanParams t (renameSortKey t kvp) cq bq); cbn [bind];
      [rewrite scan_pages_failure by assumption|]; discriminate. }
  split.
  - unfold query.
    destruct (query_plan t (orEmpty arg) cq bq) as [[params|]|e]; cbn [fst].
    + destruct pages as [|first pages]; [discriminate|].
      rewrite <- app_comm_cons, query_pages_later_failure by assumption.
      discriminate.
    + specialize (Hscan (orEmpty arg)).
      destruct (scan_on t mapItem (pages ++ Failure err :: rest) (orEmpty arg) cq bq)
        as [[o|e] after]; cbn [fst] in *; [congruence | discriminate].
    + discriminate.
  - unfold scan. specialize (Hscan (orEmpty arg)).
    destruct (scan_on t mapItem (pages ++ Failure err :: rest) (orEmpty arg) cq bq)
      as [r after]. exact Hscan.
Qed.

Lemma failed_call_never_yields_items_witness :
  forallb announcesMore [Page page1 (Some tokenAfter1)] = true
  /\ fst (query people keepItem
            ([Page page1 (Some tokenAfter1)] ++ Failure (StoreError "Throttled") :: [])
            (Some [("location", VStr "NY")]) None None) <> Fulfilled page1
  /\ fst (scan people keepItem
            ([Page page1 (Some tokenAfter1)] ++ Failure (StoreError "Throttled") :: [])
            (Some [("location", VStr "NY")]) None None) <> Ok (Fulfilled page1).
Proof.
  split; [reflexivity|].
  apply (failed_call_never_yields_items people keepItem
           [Page page1 (Some tokenAfter1)] [] (StoreError "Throttled")
           (Some [("location", VStr "NY")]) None None page1).
  reflexivity.
Defined.

(** X16. A scan that gets as far as the store rejects with the store's error
    when any of its page calls fails. *)
Theorem scan_rejects_with_store_error (t : DynamoTable)
  (mapItem : item -> result item) (pages rest : list response) (err : js_error)
  (arg : option (obj value)) (cq : option (obj value))
  (bq : option (obj value)) (o : outcome (list item))
  (Hpages : forallb announcesMore pages = true)
  (Hcalled : fst (scan t mapItem (pages ++ Failure err :: rest) arg cq bq) = Ok o) :
  o = Rejected err.
Proof.
  apply announcesMore_continues in Hpages.
  unfold scan, scan_on in Hcalled. cbn [fst] in Hcalled.
  destruct (scanParams t (renameSortKey t (orEmpty arg)) cq bq);
    cbn [bind] in Hcalled; [|discriminate].
  rewrite scan_pages_failure in Hcalled by assumption. congruence.
Qed.

Lemma scan_rejects_with_store_error_witness :
  forallb announcesMore [Page page1 (Some tokenAfter1)] = true
  /\ fst (scan people keepItem
            ([Page page1 (Some tokenAfter1)] ++ Failure (StoreError "Throttled") :: [])
            (Some [("lastName", VStr "Doe")]) None None)
     = Ok (Rejected (StoreError "Throttled"))
  /\ Rejected (StoreError "Throttled") = Rejected (A := list item) (StoreError "Throttled").
Proof.
  split; [reflexivity | split; [reflexivity|]].
  apply (scan_rejects_with_store_error people keepItem
           [Page page1 (Some tokenAfter1)] [] (StoreError "Throttled")
           (Some [("lastName", VStr "Doe")]) None None); reflexivity.
Defined.

(** X17. A query whose first store call fails, or that fails before any store
    call, always rejects. *)
Theorem query_rejects_when_first_call_fails (t : DynamoTable)
  (mapItem : item -> result item) (rest : list response) (err : js_error)
  (arg : option (obj value)) (cq : option (obj value))
  (bq : option (obj value)) :
  exists e, fst (query t mapItem (Failure err :: rest) arg cq bq) = Rejected e
            /\ (forall params, query_plan t (orEmpty arg) cq bq
                               = Ok (IssueQuery params) -> e = err).
Proof.
  unfold query.
  destruct (query_plan t (orEmpty arg) cq bq) as [[params|]|e]; cbn [fst].
  - exists err. split; [reflexivity | reflexivity].
  - unfold scan_on.
    destruct (scanParams t (renameSortKey t (orEmpty arg)) cq bq) as [p|e];
      cbn [bind fst]; eexists; (split; [reflexivity | discriminate]).
  - exists e. split; [reflexivity | discriminate].
Qed.

(** ** mapItemResult *)



(** ** rawQuery *)

(** X19. rawQuery overwrites TableName in the caller's parameter object and
    leaves its other members alone; it asks the store once, so when the
    answer announces further pages the caller gets the first page only. *)
Theorem rawQuery_reads_first_page_only (t : DynamoTable)
  (mapItem : item -> result item) (items : list item) (next : option item)
  (rest : list response) (queryParams : obj value) :
  fst (rawQuery t mapItem (Page items next :: rest) queryParams)
  = match map_result mapItem items with
    | Ok mapped => Fulfilled mapped
    | Throw e => Rejected e
    end
  /\ obj_lookup (snd (rawQuery t mapItem (Page items next :: rest) queryParams))
                "TableName" = Some (VStr (tableName t))
  /\ forall k, k <> "TableName" ->
       obj_lookup (snd (rawQuery t mapItem (Page items next :: rest) queryParams)) k
       = obj_lookup queryParams k.
Proof.
  unfold rawQuery. cbn [fst snd]. split; [reflexivity | split].
  - apply obj_lookup_set_same.
  - intros k Hk. apply obj_lookup_set_other. congruence.
Qed.

(** ** putItem on the heap *)

Lemma heap_props_update_same (h : heap) (a : nat) (o : obj hval) :
  a < List.length h -> heap_props (heap_update h a o) a = o.
Proof.
  unfold heap_props. revert a. induction h as [|x h IH]; intros a Ha.
  - cbn in Ha. lia.
  - destruct a; cbn; [reflexivity | apply IH; cbn in Ha; lia].
Qed.

Lemma heap_update_twice (h : heap) (a : nat) (o1 o2 : obj hval) :
  heap_update (heap_update h a o1) a o2 = heap_update h a o2.
Proof.
  revert a. induction h as [|x h IH]; intros a; [reflexivity|].
  destruct a; cbn; [reflexivity | now rewrite IH].
Qed.

Lemma heap_update_same (h : heap) (a : nat) :
  heap_update h a (heap_props h a) = h.
Proof.
  unfold heap_props. revert a. induction h as [|x h IH]; intros a; [reflexivity|].
  destruct a; cbn; [reflexivity | now rewrite IH].
Qed.




Lemma distinctb_cons (k : string) (l : list string) :
  distinctb (k :: l) = true -> ~ In k l /\ distinctb l = true.
Proof.
  intros H. apply distinctb_NoDup in H as Hnd. inversion Hnd; subst.
  cbn in H. apply andb_prop in H as [_ H]. now split.
Qed.





Lemma deleteEmptyStrings_object_never_throws (fuel : nat) (h : heap) (a : nat)
  (e : js_error) :
  deleteEmptyStrings fuel h (HRef a) <> Some (Throw e).
Proof.
  revert h a. induction fuel as [|fuel IH]; intros h a; [discriminate|].
  cbn [deleteEmptyStrings].
  generalize (obj_keys (heap_props h a)) as keys. intros keys. revert h.
  induction keys as [|i rest IHk]; intros h; [discriminate|].
  destruct (obj_lookup (heap_props h a) i) as [[| | | |s|b]|]; try apply IHk.
  - destruct (s =? ""); apply IHk.
  - pose proof (IH h b) as Hb.
    destruct (deleteEmptyStrings fuel h (HRef b)) as [[h'|e']|];
      [apply IHk | congruence | discriminate].
Qed.

(** X21. putItem never raises the invalid-object error of deleteEmptyStrings:
    the copy it cleans is an object, and the recursion only enters
    properties that are objects. Whenever the cleaning terminates, the
    call returns a promise. *)
Theorem putItem_never_throws
  (objectConstructor : option (heap -> hval -> heap * result hval))
  (putFails : option js_error) (fuel : nat) (h : heap) (it : hval)
  (e : js_error) :
  putItem objectConstructor putFails fuel h it <> Some (Throw e).
Proof.
  unfold putItem.
  destruct (match objectConstructor with
            | Some construct => construct h it
            | None => (h, Ok it)
            end) as [h1 [it1|err]]; [|discriminate].
  unfold toPlainObject, heap_alloc.
  match goal with
  | |- context [deleteEmptyStrings fuel ?hh (HRef ?aa)] =>
      pose proof (deleteEmptyStrings_object_never_throws fuel hh aa e) as Hn;
      destruct (deleteEmptyStrings fuel hh (HRef aa)) as [[h2|e2]|];
      [|congruence|discriminate]
  end.
  match goal with
  | |- context [snapshot fuel ?hh ?vv] => destruct (snapshot fuel hh vv)
  end; discriminate.
Qed.

(** *** Items without nested objects *)

Lemma obj_lookup_middle {A} (pre post : obj A) (k : string) (v : A) :
  ~ In k (obj_keys pre) -> obj_lookup (pre ++ (k, v) :: post)%list k = Some v.
Proof.
  unfold obj_keys. induction pre as [|[k' v'] pre IH]; intros Hk; cbn.
  - now rewrite String.eqb_refl.
  - cbn in Hk. destruct (k' =? k) eqn:E; [apply String.eqb_eq in E; tauto|].
    apply IH. tauto.
Qed.

Lemma obj_delete_absent {A} (o : obj A) (k : string) :
  ~ In k (obj_keys o) -> obj_delete o k = o.
Proof.
  unfold obj_keys. induction o as [|[k' v'] o IH]; intros Hk; [reflexivity|].
  cbn in Hk |- *. destruct (k' =? k) eqn:E; [apply String.eqb_eq in E; tauto|].
  rewrite IH by tauto. reflexivity.
Qed.

Lemma obj_delete_middle {A} (pre post : obj A) (k : string) (v : A) :
  ~ In k (obj_keys pre) -> ~ In k (obj_keys post) ->
  obj_delete (pre ++ (k, v) :: post)%list k = (pre ++ post)%list.
Proof.
  intros Hpre Hpost. unfold obj_keys in *.
  induction pre as [|[k' v'] pre IH]; cbn.
  - rewrite String.eqb_refl. now apply obj_delete_absent.
  - cbn in Hpre. destruct (k' =? k) eqn:E; [apply String.eqb_eq in E; tauto|].
    rewrite IH by tauto. reflexivity.
Qed.

Lemma cleanKeys_filter (pre post : obj hval) :
  distinctb (obj_keys pre ++ obj_keys post)%list = true ->
  fold_left cleanKey (obj_keys post) (pre ++ post)%list
  = (pre ++ withoutEmptyStrings post)%list.
Proof.
  revert pre. induction post as [|[k v] post IH]; intros pre Hd; [reflexivity|].
  assert (Hnd : NoDup (obj_keys pre ++ k :: obj_keys post))
    by now apply distinctb_NoDup.
  assert (Hpre : ~ In k (obj_keys pre)).
  { apply NoDup_remove_2 in Hnd. intros H. apply Hnd. apply in_or_app. now left. }
  assert (Hpost : ~ In k (obj_keys post)).
  { apply NoDup_remove_2 in Hnd. intros H. apply Hnd. apply in_or_app. now right. }
  change (obj_keys ((k, v) :: post)) with (k :: obj_keys post).
  cbn [fold_left]. unfold cleanKey at 2.
  rewrite (obj_lookup_middle pre post k v Hpre).
  unfold withoutEmptyStrings. cbn [filter snd].
  destruct (isEmptyString v) eqn:Ev; cbn [negb].
  - rewrite (obj_delete_middle pre post k v Hpre Hpost).
    apply IH. apply distinctb_NoDup in Hd.
    assert (Hnd' : NoDup (obj_keys pre ++ obj_keys post))
      by now apply NoDup_remove_1 in Hnd.
    clear -Hnd'. induction (obj_keys pre ++ obj_keys post)%list as [|x l IHl];
      [reflexivity|].
    inversion Hnd'; subst. cbn. rewrite IHl by assumption.
    rewrite andb_true_r. apply negb_true_iff.
    destruct (existsb (String.eqb x) l) eqn:Ex; [|reflexivity].
    apply existsb_exists in Ex as [y [Hy Exy]]. apply String.eqb_eq in Exy.
    now subst y.
  - replace (pre ++ (k, v) :: post)%list with ((pre ++ [(k, v)]) ++ post)%list
      by now rewrite <- app_assoc.
    fold (withoutEmptyStrings post).
    rewrite (IH (pre ++ [(k, v)])%list).
    + now rewrite <- app_assoc.
    + unfold obj_keys in *. rewrite map_app, <- app_assoc. exact Hd.
Qed.

Lemma isFlat_cleanKey (o : obj hval) (i : string) :
  isFlat o = true -> isFlat (cleanKey o i) = true.
Proof.
  intros Hf. unfold cleanKey.
  destruct (obj_lookup o i) as [v|]; [|exact Hf].
  destruct (isEmptyString v); [|exact Hf].
  rewrite obj_delete_filter. unfold isFlat in *.
  apply forallb_forall. intros x Hx. apply filter_In in Hx as [Hx _].
  now apply (proj1 (forallb_forall _ _) Hf).
Qed.

Lemma isFlat_lookup (o : obj hval) (i : string) (b : nat) :
  isFlat o = true -> obj_lookup o i <> Some (HRef b).
Proof.
  unfold isFlat. induction o as [|[k v] o IH]; [discriminate|].
  cbn. intros H. apply andb_prop in H as [Hv Ho].
  destruct (k =? i); [|now apply IH].
  intros E. injection E as ->. discriminate.
Qed.

Lemma deleteEmptyStrings_flat (fuel : nat) (h : heap) (a : nat) :
  a < List.length h ->
  isFlat (heap_props h a) = true ->
  distinctb (obj_keys (heap_props h a)) = true ->
  deleteEmptyStrings (S fuel) h (HRef a)
  = Some (Ok (heap_update h a (withoutEmptyStrings (heap_props h a)))).
Proof.
  intros Ha Hflat Hkeys. cbn [deleteEmptyStrings].
  assert (Hclean : fold_left cleanKey (obj_keys (heap_props h a)) (heap_props h a)
                   = withoutEmptyStrings (heap_props h a))
    by exact (cleanKeys_filter [] (heap_props h a) Hkeys).
  rewrite <- Hclean. clear Hclean.
  generalize (obj_keys (heap_props h a)) as keys. intros keys.
  rewrite <- (heap_update_same h a) at 1.
  revert Hflat. generalize (heap_props h a) as o. intros o. revert o.
  induction keys as [|i rest IH]; intros o Hflat; [reflexivity|].
  rewrite (heap_props_update_same h a o Ha). cbn [fold_left].
  pose proof (isFlat_cleanKey o i Hflat) as Hflat'.
  pose proof (isFlat_lookup o i) as Hnoref.
  unfold cleanKey in *.
  destruct (obj_lookup o i) as [[| | | |s|b]|]; cbn [isEmptyString] in *;
    try (apply (IH o Hflat)).
  - destruct (s =? "").
    + rewrite heap_update_twice. apply (IH _ Hflat').
    + apply (IH o Hflat).
  - exfalso. now apply (Hnoref b Hflat).
Qed.

(** X22. On an object without nested objects, deleteEmptyStrings removes the
    properties whose value is the empty string and keeps all others, in
    order; no other object of the heap is touched. *)
Theorem deleteEmptyStrings_flat_object (fuel : nat) (h : heap) (a : nat)
  (Ha : a < List.length h)
  (Hflat : isFlat (heap_props h a) = true)
  (Hkeys : distinctb (obj_keys (heap_props h a)) = true) :
  deleteEmptyStrings (S fuel) h (HRef a)
  = Some (Ok (heap_update h a (withoutEmptyStrings (heap_props h a))))
  /\ forall b, b <> a ->
       heap_props (heap_update h a (withoutEmptyStrings (heap_props h a))) b
       = heap_props h b.
Proof.
  split; [now apply deleteEmptyStrings_flat|].
  intros b Hb. unfold heap_props. clear -Hb. revert a b Hb.
  induction h as [|x h IH]; intros a b Hb; [now destruct a|].
  destruct a, b; cbn; try reflexivity; [contradiction | apply IH; congruence].
Qed.

Lemma deleteEmptyStrings_flat_object_witness :
  0 < List.length flat_heap
  /\ isFlat (heap_props flat_heap 0) = true
  /\ distinctb (obj_keys (heap_props flat_heap 0)) = true
  /\ deleteEmptyStrings 1 flat_heap (HRef 0)
     = Some (Ok (heap_update flat_heap 0
                   (withoutEmptyStrings (heap_props flat_heap 0))))
  /\ forall b, b <> 0 ->
       heap_props (heap_update flat_heap 0
                     (withoutEmptyStrings (heap_props flat_heap 0))) b
       = heap_props flat_heap b.
Proof.
  split; [cbn; lia | split; [reflexivity | split; [reflexivity|]]].
  apply (deleteEmptyStrings_flat_object 0 flat_heap 0); [cbn; lia | reflexivity..].
Defined.






Example putItem_flat_example :
  putItem None None 1 flat_heap (HRef 0)
  = Some (Ok {| put_promise := Fulfilled (HRef 0);
                put_Item :=
                  Some (VObj [("location", VStr "NY"); ("id", VStr "7");
                              ("age", VNum 30); ("email", VStr "x@y.com")]);
                put_heap :=
                  (flat_heap ++ [[("location", HStr "NY"); ("id", HStr "7");
                                  ("age", HNum 30); ("email", HStr "x@y.com")]])%list |}).
Proof. reflexivity. Qed.

(** ** The table collection *)

Lemma new_DynamoTable_name (d : table_desc) (t : DynamoTable) :
  new_DynamoTable (Some d) = Ok t -> tableName t = TableName d /\ tableDesc t = d.
Proof.
  unfold new_DynamoTable.
  destruct (find_key HASH (KeySchema d)); [|discriminate].
  intros H. injection H as <-. now split.
Qed.

(** X24. buildTableFromName returns a table object only for a description
    whose name is the prefixed name searched for, taken from the given
    descriptions; it returns undefined exactly when no description has
    that name. *)
Theorem buildTableFromName_finds_by_name (descriptions : list table_desc)
  (tablePrefix : option string) (name : string) :
  (forall t, buildTableFromName descriptions tablePrefix name = Ok (Some t) ->
     tableName t = searchTerm tablePrefix name /\ In (tableDesc t) descriptions)
  /\ (buildTableFromName descriptions tablePrefix name = Ok None
      <-> forall d, In d descriptions -> TableName d <> searchTerm tablePrefix name).
Proof.
  unfold buildTableFromName.
  destruct (find (fun d => TableName d =? searchTerm tablePrefix name) descriptions)
    as [found|] eqn:Hfind.
  - apply find_some in Hfind as [Hin Hname]. apply String.eqb_eq in Hname.
    split.
    + intros t Ht. destruct (new_DynamoTable (Some found)) as [t'|] eqn:Hnew;
        [|discriminate]. cbn in Ht. injection Ht as ->.
      destruct (new_DynamoTable_name found t Hnew) as [-> ->]. now split.
    + split.
      * destruct (new_DynamoTable (Some found)); discriminate.
      * intros Hnone. exfalso. now apply (Hnone found Hin).
  - split; [discriminate|]. split; [|reflexivity].
    intros _ d Hin Hname.
    pose proof (find_none _ _ Hfind d Hin) as Hd. cbn in Hd.
    apply String.eqb_neq in Hd. contradiction.
Qed.

Lemma prefix_append (p s : string) : String.prefix p (p ++ s) = true.
Proof.
  induction p as [|c p IH]; [now destruct s|]. cbn.
  destruct (ascii_dec c c); [exact IH | contradiction].
Qed.

Lemma searched_table_is_retrieved (tablePrefix : option string)
  (name : string) (tableNames : list string) :
  In (searchTerm tablePrefix name) tableNames ->
  In (searchTerm tablePrefix name) (tablesToRetrieve tablePrefix tableNames).
Proof.
  unfold tablesToRetrieve, searchTerm, startsWith.
  destruct (truthyName tablePrefix); [|easy].
  intros Hin. apply filter_In. split; [exact Hin | apply prefix_append].
Qed.

Lemma describe_all (describeTable : string -> result table_desc)
  (names : list string) :
  forallb (describedWell describeTable) names = true ->
  exists results,
    map_result describeTable names = Ok results
    /\ map TableName results = names
    /\ forall d, In d results -> describeTable (TableName d) = Ok d.
Proof.
  induction names as [|n names IH]; intros H.
  - exists []. repeat split. intros d [].
  - cbn in H. apply andb_prop in H as [Hn Hrest]. unfold describedWell in Hn.
    destruct (describeTable n) as [d|] eqn:Hd; [|discriminate].
    apply andb_prop in Hn as [Hname _]. apply String.eqb_eq in Hname.
    destruct (IH Hrest) as [results [Hrun [Hnames Hall]]].
    exists (d :: results). cbn. rewrite Hd, Hrun. cbn.
    repeat split; [now rewrite Hname, Hnames|].
    intros d' [<-|Hin]; [now rewrite Hname | now apply Hall].
Qed.

(** X25. When the store lists the prefixed people table and describes every
    table it lists under its own name, with a partition key, initialize
    resolves and has set people to the table object of that name. *)
Theorem initialize_finds_people_table (tablePrefix : option string)
  (tableNames : list string) (describeTable : string -> result table_desc)
  (Hlisted : existsb (String.eqb (searchTerm tablePrefix "people")) tableNames
             = true)
  (Hdescribed : forallb (describedWell describeTable) tableNames = true) :
  exists t,
    initialize tablePrefix (Ok tableNames) describeTable = Fulfilled (Some t)
    /\ tableName t = searchTerm tablePrefix "people"
    /\ describeTable (searchTerm tablePrefix "people") = Ok (tableDesc t).
Proof.
  apply existsb_exists in Hlisted as [n [Hin Hn]]. apply String.eqb_eq in Hn.
  subst n.
  pose proof (searched_table_is_retrieved tablePrefix "people" tableNames Hin)
    as Hkept.
  assert (Hsub : forallb (describedWell describeTable)
                         (tablesToRetrieve tablePrefix tableNames) = true).
  { apply forallb_forall. intros n Hn.
    apply (proj1 (forallb_forall _ _) Hdescribed).
    unfold tablesToRetrieve in Hn. destruct (truthyName tablePrefix); [|exact Hn].
    now apply filter_In in Hn. }
  destruct (describe_all describeTable _ Hsub) as [results [Hrun [Hnames Hall]]].
  unfold initialize, buildTableFromName. rewrite Hrun.
  destruct (find (fun d => TableName d =? searchTerm tablePrefix "people") results)
    as [found|] eqn:Hfind.
  - apply find_some in Hfind as [Hfin Hfname]. apply String.eqb_eq in Hfname.
    pose proof (Hall found Hfin) as Hfd.
    assert (Hwell : describedWell describeTable (TableName found) = true).
    { apply (proj1 (forallb_forall _ _) Hsub). rewrite <- Hnames.
      now apply in_map. }
    unfold describedWell in Hwell. rewrite Hfd in Hwell.
    apply andb_prop in Hwell as [_ Hhash].
    unfold new_DynamoTable.
    destruct (find_key HASH (KeySchema found)) as [pk|]; [|discriminate].
    cbn. eexists. split; [reflexivity|]. cbn.
    split; [exact Hfname | now rewrite <- Hfname].
  - exfalso. rewrite <- Hnames in Hkept.
    apply in_map_iff in Hkept as [d [Hd Hdin]].
    pose proof (find_none _ _ Hfind d Hdin) as Hno. cbn in Hno.
    rewrite Hd, String.eqb_refl in Hno. discriminate.
Qed.

Lemma initialize_finds_people_table_witness :
  existsb (String.eqb (searchTerm (Some "dev_") "people"))
          ["prod_people"; "dev_orders"; "dev_people"] = true
  /\ forallb (describedWell describeAsPeople)
             ["prod_people"; "dev_orders"; "dev_people"] = true
  /\ exists t,
      initialize (Some "dev_") (Ok ["prod_people"; "dev_orders"; "dev_people"])
                 describeAsPeople = Fulfilled (Some t)
      /\ tableName t = searchTerm (Some "dev_") "people"
      /\ describeAsPeople (searchTerm (Some "dev_") "people") = Ok (tableDesc t).
Proof.
  split; [reflexivity | split; [reflexivity|]].
  apply (initialize_finds_people_table (Some "dev_")
           ["prod_people"; "dev_orders"; "dev_people"] describeAsPeople);
    reflexivity.
Defined.

(** ** The table name of a stream ARN *)

Lemma split_first_piece (sep : ascii) (a s : string) :
  lacks sep a = true ->
  exists h t, split sep s = h :: t /\ split sep (a ++ s) = (a ++ h) :: t.
Proof.
  unfold lacks. induction a as [|c a IH]; intros Ha.
  - pose proof (split_not_nil sep s) as Hne.
    destruct (split sep s) as [|h t] eqn:E; [contradiction|].
    exists h, t. split; [reflexivity | exact E].
  - cbn in Ha. apply andb_prop in Ha as [Hc Hrest]. apply negb_true_iff in Hc.
    destruct (IH Hrest) as [h [t [Hs Has]]]. exists h, t.
    split; [exact Hs|]. cbn [append split]. now rewrite Hc, Has.
Qed.

Lemma split_at_separator (sep : ascii) (a s : string) :
  lacks sep a = true ->
  split sep (a ++ String sep s) = a :: split sep s.
Proof.
  intros Ha.
  destruct (split_first_piece sep a (String sep s) Ha) as [h [t [Hs Has]]].
  cbn [split] in Hs. rewrite Ascii.eqb_refl in Hs. injection Hs as <- <-.
  now rewrite Has, append_empty_r.
Qed.

Lemma regroup_resource (kind name rest : string) :
  (kind ++ "/" ++ name ++ "/") ++ rest
  = kind ++ String "/" (name ++ String "/" rest).
Proof.
  rewrite append_assoc. cbn [append]. now rewrite append_assoc.
Qed.

(** X26. For a stream ARN of the usual shape, five colon-free fields, then
    the resource kind, a slash, the table name, a slash and the stream
    label, the handler reads the table name; an ARN with fewer than six
    colon-separated fields makes it throw. *)
Theorem tableNameOfArn_reads_table_name (f0 f1 f2 f3 f4 kind name label : string)
  (Hf0 : lacks ":" f0 = true) (Hf1 : lacks ":" f1 = true)
  (Hf2 : lacks ":" f2 = true) (Hf3 : lacks ":" f3 = true)
  (Hf4 : lacks ":" f4 = true)
  (Hkind : lacks ":" kind && lacks "/" kind = true)
  (Hname : lacks ":" name && lacks "/" name = true) :
  tableNameOfArn (f0 ++ ":" ++ f1 ++ ":" ++ f2 ++ ":" ++ f3 ++ ":" ++ f4 ++ ":"
                     ++ kind ++ "/" ++ name ++ "/" ++ label)
  = Ok (Some name).
Proof.
  apply andb_prop in Hkind as [Hk1 Hk2]. apply andb_prop in Hname as [Hn1 Hn2].
  unfold tableNameOfArn.
  change (":" ++ ?x) with (String ":" x).
  cbn [append].
  rewrite !split_at_separator by assumption.
  assert (Hres : lacks ":" (kind ++ "/" ++ name ++ "/") = true).
  { unfold lacks in *. clear -Hk1 Hn1.
    induction kind as [|c k IH]; cbn in *.
    - induction name as [|c n IHn]; cbn in *; [reflexivity|].
      apply andb_prop in Hn1 as [Hc Hn]. rewrite Hc. now apply IHn.
    - apply andb_prop in Hk1 as [Hc Hk]. rewrite Hc. now apply IH. }
  destruct (split_first_piece ":" (kind ++ "/" ++ name ++ "/") label Hres)
    as [h [t [_ Hsplit]]].
  rewrite <- regroup_resource, Hsplit. cbn [nth_error].
  rewrite regroup_resource.
  rewrite !split_at_separator by assumption. reflexivity.
Qed.

Lemma tableNameOfArn_reads_table_name_witness :
  lacks ":" "arn" = true /\ lacks ":" "aws" = true /\ lacks ":" "dynamodb" = true
  /\ lacks ":" "us-east-1" = true /\ lacks ":" "123456789012" = true
  /\ lacks ":" "table" && lacks "/" "table" = true
  /\ lacks ":" "people" && lacks "/" "people" = true
  /\ tableNameOfArn ("arn" ++ ":" ++ "aws" ++ ":" ++ "dynamodb" ++ ":" ++ "us-east-1"
                       ++ ":" ++ "123456789012" ++ ":" ++ "table" ++ "/" ++ "people"
                       ++ "/" ++ "stream/2016-11-11T10:20:30.000")
     = Ok (Some "people").
Proof.
  repeat (split; [reflexivity|]).
  apply (tableNameOfArn_reads_table_name "arn" "aws" "dynamodb" "us-east-1"
           "123456789012" "table" "people" "stream/2016-11-11T10:20:30.000");
    reflexivity.
Defined.

Example tableNameOfArn_short_arn :
  tableNameOfArn "arn:aws:dynamodb" = Throw TypeError.
Proof. reflexivity. Qed.

(** ** The key object, entry by entry *)



(** ** scan and the key attributes *)



